(** * Queue heads and queue transfer descriptors of the DWC OTG host driver

    A shallow embedding of [drivers/usb/dwc_otg/dwc_otg_hcd_queue.c]: the
    admission of queue heads (QH) into the non-periodic and periodic
    schedules, their removal and deactivation, and the queueing of transfer
    descriptors (QTD).

    Integers of the C file are [Z].  Where the C file itself declares a
    fixed-width unsigned variable ([uint16_t max_claimed_usecs],
    [uint16_t frame_number], [uint32_t max_xfer_size]) the wrap-around of
    the assignment is written out with [to_uint16] and [to_uint32].  The
    structures [dwc_otg_qh_t] and [dwc_otg_hcd_t] are declared in
    [dwc_otg_hcd.h]; their integer fields are kept as unbounded [Z], and
    [int] arithmetic is taken without overflow, which C leaves undefined.
    The spin lock macros and the debug output have no counterpart.

    The intrusive [list_head] links are modelled by their contents: each
    schedule is the list of the QHs linked on it, in list order, and a QH's
    [qh_list_entry] is empty exactly when the QH is on none of them. *)

From Stdlib Require Import ZArith Lia Bool.
From stdpp Require Import base decidable option list gmap.

Local Open Scope Z_scope.

Set Default Proof Using "Type".

(** ** Machine integers *)

Definition to_uint16 (x : Z) : Z := x mod 2 ^ 16.
Definition to_uint32 (x : Z) : Z := x mod 2 ^ 32.

(** A C integer used as a condition. *)
Definition truthy (x : Z) : bool := negb (x =? 0).

(** [ENOSPC] of [errno.h]. *)
Definition ENOSPC : Z := 28.

(** ** Data *)

Definition qh_ptr := positive.
Definition qtd_ptr := positive.
Definition ep_ptr := positive.

Inductive usb_endpoint_xfer : Set :=
| USB_ENDPOINT_XFER_CONTROL
| USB_ENDPOINT_XFER_ISOC
| USB_ENDPOINT_XFER_BULK
| USB_ENDPOINT_XFER_INT.

Inductive usb_pipetype : Set :=
| PIPE_ISOCHRONOUS
| PIPE_INTERRUPT
| PIPE_CONTROL
| PIPE_BULK.

Inductive usb_device_speed : Set :=
| USB_SPEED_UNKNOWN
| USB_SPEED_LOW
| USB_SPEED_FULL
| USB_SPEED_HIGH.

(** The [prtspd] field of the host port register [hprt0]. *)
Inductive hprt0_prtspd : Set :=
| DWC_HPRT0_PRTSPD_HIGH_SPEED
| DWC_HPRT0_PRTSPD_FULL_SPEED
| DWC_HPRT0_PRTSPD_LOW_SPEED.

(** The [speed] core parameter. *)
Inductive dwc_speed_param : Set :=
| DWC_SPEED_PARAM_HIGH
| DWC_SPEED_PARAM_FULL.

Inductive dwc_otg_hc_pid : Set :=
| DWC_OTG_HC_PID_DATA0
| DWC_OTG_HC_PID_DATA1.

Definition usb_endpoint_xfer_eqb (a b : usb_endpoint_xfer) : bool :=
  match a, b with
  | USB_ENDPOINT_XFER_CONTROL, USB_ENDPOINT_XFER_CONTROL
  | USB_ENDPOINT_XFER_ISOC, USB_ENDPOINT_XFER_ISOC
  | USB_ENDPOINT_XFER_BULK, USB_ENDPOINT_XFER_BULK
  | USB_ENDPOINT_XFER_INT, USB_ENDPOINT_XFER_INT => true
  | _, _ => false
  end.

Definition is_low_or_full (s : usb_device_speed) : bool :=
  match s with
  | USB_SPEED_LOW | USB_SPEED_FULL => true
  | _ => false
  end.

(** What [dwc_otg_hcd_qh_init] reads of a [struct urb]: the pipe, the
    device ([urb->dev->speed], [urb->dev->tt->hub->devnum] when
    [urb->dev->tt] is not NULL), the polling interval and the endpoint
    ([dwc_urb_to_endpoint]). *)
Record urb_t : Set := {
  urb_pipetype : usb_pipetype;
  urb_pipein : bool;
  urb_maxpacket : Z;
  urb_dev_speed : usb_device_speed;
  urb_dev_tt_hub_devnum : option Z;
  urb_interval : Z;
  urb_ep : ep_ptr
}.

(** [dwc_otg_qh_t], without [qh_list_entry] (see the schedules below). *)
Record dwc_otg_qh_t : Set := {
  ep_type : usb_endpoint_xfer;
  ep_is_in : Z;
  data_toggle : dwc_otg_hc_pid;
  maxp : Z;
  do_split : Z;
  usecs : Z;
  interval : Z;
  sched_frame : Z;
  start_split_frame : Z;
  qtd_list : list qtd_ptr
}.

Definition set_sched_frame (v : Z) (qh : dwc_otg_qh_t) : dwc_otg_qh_t :=
  {| ep_type := ep_type qh; ep_is_in := ep_is_in qh;
     data_toggle := data_toggle qh; maxp := maxp qh; do_split := do_split qh;
     usecs := usecs qh; interval := interval qh; sched_frame := v;
     start_split_frame := start_split_frame qh; qtd_list := qtd_list qh |}.

Definition set_start_split_frame (v : Z) (qh : dwc_otg_qh_t) : dwc_otg_qh_t :=
  {| ep_type := ep_type qh; ep_is_in := ep_is_in qh;
     data_toggle := data_toggle qh; maxp := maxp qh; do_split := do_split qh;
     usecs := usecs qh; interval := interval qh; sched_frame := sched_frame qh;
     start_split_frame := v; qtd_list := qtd_list qh |}.

Definition set_interval (v : Z) (qh : dwc_otg_qh_t) : dwc_otg_qh_t :=
  {| ep_type := ep_type qh; ep_is_in := ep_is_in qh;
     data_toggle := data_toggle qh; maxp := maxp qh; do_split := do_split qh;
     usecs := usecs qh; interval := v; sched_frame := sched_frame qh;
     start_split_frame := start_split_frame qh; qtd_list := qtd_list qh |}.

Definition set_usecs (v : Z) (qh : dwc_otg_qh_t) : dwc_otg_qh_t :=
  {| ep_type := ep_type qh; ep_is_in := ep_is_in qh;
     data_toggle := data_toggle qh; maxp := maxp qh; do_split := do_split qh;
     usecs := v; interval := interval qh; sched_frame := sched_frame qh;
     start_split_frame := start_split_frame qh; qtd_list := qtd_list qh |}.

Definition set_qtd_list (v : list qtd_ptr) (qh : dwc_otg_qh_t) : dwc_otg_qh_t :=
  {| ep_type := ep_type qh; ep_is_in := ep_is_in qh;
     data_toggle := data_toggle qh; maxp := maxp qh; do_split := do_split qh;
     usecs := usecs qh; interval := interval qh; sched_frame := sched_frame qh;
     start_split_frame := start_split_frame qh; qtd_list := v |}.

(** [hcd->core_if->core_params] *)
Record dwc_otg_core_params_t : Set := {
  host_channels : Z;
  max_transfer_size : Z;
  speed : dwc_speed_param
}.

(** The fields of [struct usb_bus] reached through [hcd_to_bus]. *)
Record usb_bus : Set := {
  bandwidth_allocated : Z;
  bandwidth_int_reqs : Z;
  bandwidth_isoc_reqs : Z
}.

(** The five schedules of the HCD. *)
Inductive sched_list : Set :=
| NON_PERIODIC_SCHED_INACTIVE
| NON_PERIODIC_SCHED_ACTIVE
| PERIODIC_SCHED_INACTIVE
| PERIODIC_SCHED_READY
| PERIODIC_SCHED_QUEUED.

(** A [struct list_head *]: the entry of a QH, or the head of a schedule. *)
Inductive list_head_ptr : Set :=
| QH_LIST_ENTRY (p : qh_ptr)
| SCHED_HEAD (b : sched_list).

(** [dwc_otg_hcd_t] *)
Record dwc_otg_hcd_t : Set := {
  core_params : dwc_otg_core_params_t;
  hprt0 : hprt0_prtspd;
  bus : usb_bus;
  non_periodic_sched_inactive : list qh_ptr;
  non_periodic_sched_active : list qh_ptr;
  non_periodic_qh_ptr : list_head_ptr;
  periodic_sched_inactive : list qh_ptr;
  periodic_sched_ready : list qh_ptr;
  periodic_sched_queued : list qh_ptr;
  periodic_usecs : Z;
  periodic_channels : Z;
  non_periodic_channels : Z;
  frame_number : Z
}.

Definition sched_list_of (hcd : dwc_otg_hcd_t) (b : sched_list) : list qh_ptr :=
  match b with
  | NON_PERIODIC_SCHED_INACTIVE => non_periodic_sched_inactive hcd
  | NON_PERIODIC_SCHED_ACTIVE => non_periodic_sched_active hcd
  | PERIODIC_SCHED_INACTIVE => periodic_sched_inactive hcd
  | PERIODIC_SCHED_READY => periodic_sched_ready hcd
  | PERIODIC_SCHED_QUEUED => periodic_sched_queued hcd
  end.

Definition all_sched_lists : list sched_list :=
  [NON_PERIODIC_SCHED_INACTIVE; NON_PERIODIC_SCHED_ACTIVE;
   PERIODIC_SCHED_INACTIVE; PERIODIC_SCHED_READY; PERIODIC_SCHED_QUEUED].

(** Rebuilds the HCD with new schedules, cursor, counters and bus figures. *)
Definition with_sched (hcd : dwc_otg_hcd_t)
    (npi npa : list qh_ptr) (cur : list_head_ptr) (pi pr pq : list qh_ptr)
    (pu pc : Z) (b : usb_bus) : dwc_otg_hcd_t :=
  {| core_params := core_params hcd; hprt0 := hprt0 hcd; bus := b;
     non_periodic_sched_inactive := npi; non_periodic_sched_active := npa;
     non_periodic_qh_ptr := cur;
     periodic_sched_inactive := pi; periodic_sched_ready := pr;
     periodic_sched_queued := pq;
     periodic_usecs := pu; periodic_channels := pc;
     non_periodic_channels := non_periodic_channels hcd;
     frame_number := frame_number hcd |}.

Definition set_non_periodic_sched_inactive (l : list qh_ptr) (hcd : dwc_otg_hcd_t) :=
  with_sched hcd l (non_periodic_sched_active hcd) (non_periodic_qh_ptr hcd)
    (periodic_sched_inactive hcd) (periodic_sched_ready hcd)
    (periodic_sched_queued hcd) (periodic_usecs hcd) (periodic_channels hcd)
    (bus hcd).

Definition set_periodic_sched_inactive (l : list qh_ptr) (hcd : dwc_otg_hcd_t) :=
  with_sched hcd (non_periodic_sched_inactive hcd) (non_periodic_sched_active hcd)
    (non_periodic_qh_ptr hcd) l (periodic_sched_ready hcd)
    (periodic_sched_queued hcd) (periodic_usecs hcd) (periodic_channels hcd)
    (bus hcd).

Definition set_periodic_sched_ready (l : list qh_ptr) (hcd : dwc_otg_hcd_t) :=
  with_sched hcd (non_periodic_sched_inactive hcd) (non_periodic_sched_active hcd)
    (non_periodic_qh_ptr hcd) (periodic_sched_inactive hcd) l
    (periodic_sched_queued hcd) (periodic_usecs hcd) (periodic_channels hcd)
    (bus hcd).

Definition set_non_periodic_qh_ptr (c : list_head_ptr) (hcd : dwc_otg_hcd_t) :=
  with_sched hcd (non_periodic_sched_inactive hcd) (non_periodic_sched_active hcd)
    c (periodic_sched_inactive hcd) (periodic_sched_ready hcd)
    (periodic_sched_queued hcd) (periodic_usecs hcd) (periodic_channels hcd)
    (bus hcd).

Definition set_periodic_usecs (v : Z) (hcd : dwc_otg_hcd_t) :=
  with_sched hcd (non_periodic_sched_inactive hcd) (non_periodic_sched_active hcd)
    (non_periodic_qh_ptr hcd) (periodic_sched_inactive hcd)
    (periodic_sched_ready hcd) (periodic_sched_queued hcd) v
    (periodic_channels hcd) (bus hcd).

Definition set_periodic_channels (v : Z) (hcd : dwc_otg_hcd_t) :=
  with_sched hcd (non_periodic_sched_inactive hcd) (non_periodic_sched_active hcd)
    (non_periodic_qh_ptr hcd) (periodic_sched_inactive hcd)
    (periodic_sched_ready hcd) (periodic_sched_queued hcd) (periodic_usecs hcd)
    v (bus hcd).

Definition set_bus (b : usb_bus) (hcd : dwc_otg_hcd_t) :=
  with_sched hcd (non_periodic_sched_inactive hcd) (non_periodic_sched_active hcd)
    (non_periodic_qh_ptr hcd) (periodic_sched_inactive hcd)
    (periodic_sched_ready hcd) (periodic_sched_queued hcd) (periodic_usecs hcd)
    (periodic_channels hcd) b.

(** ** [linux/list.h] on the schedules

    The file links and unlinks [qh->qh_list_entry] with the primitives of
    [linux/list.h], which it includes.  They are modelled by what they do
    to the sequence of QHs on a schedule. *)

(** Modelled from the spec: [list_add_tail(&qh->qh_list_entry, head)] of
    [linux/list.h], which links the entry last on the list: "append QH to
    periodic_inactive", "append to non_periodic_inactive". *)
Definition list_add_tail (p : qh_ptr) (l : list qh_ptr) : list qh_ptr := l ++ [p].

(** Modelled from the spec: [list_add(&qh->qh_list_entry, head)] of
    [linux/list.h], the second half of [list_move]: "move the QH to
    periodic_ready".  The entry is linked first on the list. *)
Definition list_add (p : qh_ptr) (l : list qh_ptr) : list qh_ptr := p :: l.

(** Modelled from the spec: what unlinking the entry of [p]
    ([__list_del] of [linux/list.h]) leaves of a schedule: "unlink from its
    current bucket". *)
Definition list_del (p : qh_ptr) (l : list qh_ptr) : list qh_ptr :=
  filter (λ x, x ≠ p) l.

(** Modelled from the spec: [list_del_init(&qh->qh_list_entry)] of
    [linux/list.h]: the entry leaves the schedule it is linked on and is
    empty afterwards. *)
Definition list_del_init (p : qh_ptr) (hcd : dwc_otg_hcd_t) : dwc_otg_hcd_t :=
  with_sched hcd
    (list_del p (non_periodic_sched_inactive hcd))
    (list_del p (non_periodic_sched_active hcd))
    (non_periodic_qh_ptr hcd)
    (list_del p (periodic_sched_inactive hcd))
    (list_del p (periodic_sched_ready hcd))
    (list_del p (periodic_sched_queued hcd))
    (periodic_usecs hcd) (periodic_channels hcd) (bus hcd).

(** [qh] is linked on some schedule. *)
Definition in_schedule (hcd : dwc_otg_hcd_t) (p : qh_ptr) : Prop :=
  ∃ b, p ∈ sched_list_of hcd b.

(** Modelled from the spec: [list_empty(&qh->qh_list_entry)] of
    [linux/list.h]; the entry is not empty when "the QH is already present
    in any bucket". *)
Definition qh_list_entry_empty (hcd : dwc_otg_hcd_t) (p : qh_ptr) : bool :=
  forallb (λ b, bool_decide (p ∉ sched_list_of hcd b)) all_sched_lists.

(** The successor of [p] on [l]: [Some (Some q)] when [q] follows [p],
    [Some None] when [p] is last (its [next] is the list head), [None] when
    [p] is not on [l]. *)
Fixpoint next_on (p : qh_ptr) (l : list qh_ptr) : option (option qh_ptr) :=
  match l with
  | [] => None
  | x :: l' =>
      if bool_decide (x = p) then Some (head l') else next_on p l'
  end.

Fixpoint entry_next_from (hcd : dwc_otg_hcd_t) (p : qh_ptr)
    (bs : list sched_list) : list_head_ptr :=
  match bs with
  | [] => QH_LIST_ENTRY p
  | b :: bs' =>
      match next_on p (sched_list_of hcd b) with
      | Some (Some q) => QH_LIST_ENTRY q
      | Some None => SCHED_HEAD b
      | None => entry_next_from hcd p bs'
      end
  end.

(** [ptr->next] *)
Definition list_head_next (hcd : dwc_otg_hcd_t) (c : list_head_ptr) : list_head_ptr :=
  match c with
  | QH_LIST_ENTRY p => entry_next_from hcd p all_sched_lists
  | SCHED_HEAD b =>
      match sched_list_of hcd b with
      | [] => SCHED_HEAD b
      | q :: _ => QH_LIST_ENTRY q
      end
  end.

Definition list_head_ptr_eqb (a b : list_head_ptr) : bool :=
  match a, b with
  | QH_LIST_ENTRY p, QH_LIST_ENTRY q => bool_decide (p = q)
  | SCHED_HEAD x, SCHED_HEAD y =>
      match x, y with
      | NON_PERIODIC_SCHED_INACTIVE, NON_PERIODIC_SCHED_INACTIVE
      | NON_PERIODIC_SCHED_ACTIVE, NON_PERIODIC_SCHED_ACTIVE
      | PERIODIC_SCHED_INACTIVE, PERIODIC_SCHED_INACTIVE
      | PERIODIC_SCHED_READY, PERIODIC_SCHED_READY
      | PERIODIC_SCHED_QUEUED, PERIODIC_SCHED_QUEUED => true
      | _, _ => false
      end
  | _, _ => false
  end.

(** ** The driver *)

(** Modelled from the spec: the macro [dwc_qh_is_non_per], which
    [dwc_otg_hcd.h] defines and this file only uses.  The glossary reads
    "Non-periodic transfer: control or bulk transfer type" and "Periodic
    transfer: interrupt or isochronous transfer type". *)
Definition dwc_qh_is_non_per (qh : dwc_otg_qh_t) : bool :=
  match ep_type qh with
  | USB_ENDPOINT_XFER_BULK | USB_ENDPOINT_XFER_CONTROL => true
  | USB_ENDPOINT_XFER_ISOC | USB_ENDPOINT_XFER_INT => false
  end.

Definition SCHEDULE_SLOP : Z := 10.

(** [dwc_otg_qtd_t]: the URB it transfers. *)
Record dwc_otg_qtd_t : Set := { qtd_urb : urb_t }.

(** The memory [dwc_otg_hcd_qtd_add] works on: the HCD, the allocated QHs
    and [ep->hcpriv] of every endpoint (absent when NULL). *)
Record hcd_state : Type := {
  st_hcd : dwc_otg_hcd_t;
  st_qh : gmap qh_ptr dwc_otg_qh_t;
  st_hcpriv : gmap ep_ptr qh_ptr
}.

Section Driver.

(** What the file calls and does not define.  From [dwc_otg_hcd.h]: the
    frame arithmetic [dwc_frame_num_inc] and [dwc_frame_num_le], and the
    two fields [dwc_max_packet] and [dwc_hb_mult] of [wMaxPacketSize].
    From the USB core: [usb_calc_bus_time] and [NS_TO_US].  From the HCD:
    [dwc_otg_hcd_get_frame_number], the frame number the controller is
    in.  The driver is modelled for any such helpers. *)
Variable dwc_frame_num_inc : Z -> Z -> Z.
Variable dwc_frame_num_le : Z -> Z -> bool.
Variable dwc_max_packet : Z -> Z.
Variable dwc_hb_mult : Z -> Z.
Variable usb_calc_bus_time : usb_device_speed -> bool -> bool -> Z -> Z.
Variable NS_TO_US : Z -> Z.
Variable dwc_otg_hcd_get_frame_number : dwc_otg_hcd_t -> Z.

(** *** Queue heads *)

Definition dwc_otg_hcd_qh_init (hcd : dwc_otg_hcd_t) (urb : urb_t) : dwc_otg_qh_t :=
  (* memset (qh, 0, sizeof (dwc_otg_qh_t)) and the unconditional fields *)
  let qh :=
    {| ep_type :=
         match urb_pipetype urb with
         | PIPE_CONTROL => USB_ENDPOINT_XFER_CONTROL
         | PIPE_BULK => USB_ENDPOINT_XFER_BULK
         | PIPE_ISOCHRONOUS => USB_ENDPOINT_XFER_ISOC
         | PIPE_INTERRUPT => USB_ENDPOINT_XFER_INT
         end;
       ep_is_in := if urb_pipein urb then 1 else 0;
       data_toggle := DWC_OTG_HC_PID_DATA0;
       maxp := urb_maxpacket urb;
       do_split :=
         if is_low_or_full (urb_dev_speed urb)
            && match urb_dev_tt_hub_devnum urb with
               | Some devnum => negb (devnum =? 1)
               | None => false
               end
         then 1 else 0;
       usecs := 0; interval := 0; sched_frame := 0; start_split_frame := 0;
       qtd_list := [] |} in
  if usb_endpoint_xfer_eqb (ep_type qh) USB_ENDPOINT_XFER_INT
     || usb_endpoint_xfer_eqb (ep_type qh) USB_ENDPOINT_XFER_ISOC
  then
    let bytecount := dwc_hb_mult (maxp qh) * dwc_max_packet (maxp qh) in
    let qh := set_usecs
                (NS_TO_US (usb_calc_bus_time (urb_dev_speed urb) (urb_pipein urb)
                   (usb_endpoint_xfer_eqb (ep_type qh) USB_ENDPOINT_XFER_ISOC)
                   bytecount)) qh in
    (* Start in a slightly future (micro)frame. *)
    let qh := set_sched_frame (dwc_frame_num_inc (frame_number hcd) SCHEDULE_SLOP) qh in
    let qh := set_interval (urb_interval urb) qh in
    match hprt0 hcd with
    | DWC_HPRT0_PRTSPD_HIGH_SPEED =>
        if is_low_or_full (urb_dev_speed urb) then
          let qh := set_interval (interval qh * 8) qh in
          let qh := set_sched_frame (Z.lor (sched_frame qh) 7) qh in
          set_start_split_frame (sched_frame qh) qh
        else qh
    | _ => qh
    end
  else qh.

(** [dwc_otg_hcd_qh_create]; [alloc] is what [dwc_otg_hcd_qh_alloc ()]
    returns, [None] for NULL. *)
Definition dwc_otg_hcd_qh_create (hcd : dwc_otg_hcd_t) (urb : urb_t)
    (alloc : option qh_ptr) : option (qh_ptr * dwc_otg_qh_t) :=
  match alloc with
  | None => None
  | Some p => Some (p, dwc_otg_hcd_qh_init hcd urb)
  end.

(** *** Admission *)

Definition periodic_channel_available (hcd : dwc_otg_hcd_t) : Z :=
  let num_channels := host_channels (core_params hcd) in
  if (periodic_channels hcd + non_periodic_channels hcd <? num_channels)
     && (periodic_channels hcd <? num_channels - 1)
  then 0
  else - ENOSPC.

Definition max_claimed_usecs (hcd : dwc_otg_hcd_t) (qh : dwc_otg_qh_t) : Z :=
  match speed (core_params hcd) with
  | DWC_SPEED_PARAM_HIGH => to_uint16 (100 - usecs qh)
  | DWC_SPEED_PARAM_FULL => to_uint16 (900 - usecs qh)
  end.

Definition check_periodic_bandwidth (hcd : dwc_otg_hcd_t) (qh : dwc_otg_qh_t) : Z :=
  let status := 0 in
  if periodic_usecs hcd >? max_claimed_usecs hcd qh then - ENOSPC else status.

Definition check_max_xfer_size (hcd : dwc_otg_hcd_t) (qh : dwc_otg_qh_t) : Z :=
  let status := 0 in
  let max_xfer_size := to_uint32 (dwc_max_packet (maxp qh) * dwc_hb_mult (maxp qh)) in
  let max_channel_xfer_size := to_uint32 (max_transfer_size (core_params hcd)) in
  if max_xfer_size >? max_channel_xfer_size then - ENOSPC else status.

(** The statistics kept for usbfs when a periodic QH enters ([sign = 1]) or
    leaves ([sign = -1]) the schedule.  C leaves a division by an
    [interval] of zero undefined; [Z.quot] gives 0 there. *)
Definition account_periodic (sign : Z) (qh : dwc_otg_qh_t) (b : usb_bus) : usb_bus :=
  let allocated := bandwidth_allocated b + sign * (usecs qh ÷ interval qh) in
  if usb_endpoint_xfer_eqb (ep_type qh) USB_ENDPOINT_XFER_INT then
    {| bandwidth_allocated := allocated;
       bandwidth_int_reqs := bandwidth_int_reqs b + sign;
       bandwidth_isoc_reqs := bandwidth_isoc_reqs b |}
  else
    {| bandwidth_allocated := allocated;
       bandwidth_int_reqs := bandwidth_int_reqs b;
       bandwidth_isoc_reqs := bandwidth_isoc_reqs b + sign |}.

Definition schedule_periodic (hcd : dwc_otg_hcd_t) (p : qh_ptr)
    (qh : dwc_otg_qh_t) : Z * dwc_otg_hcd_t :=
  let status := periodic_channel_available hcd in
  if truthy status then (status, hcd) else
  let status := check_periodic_bandwidth hcd qh in
  if truthy status then (status, hcd) else
  let status := check_max_xfer_size hcd qh in
  if truthy status then (status, hcd) else
  (* Always start in the inactive schedule. *)
  let hcd := set_periodic_sched_inactive
               (list_add_tail p (periodic_sched_inactive hcd)) hcd in
  (* Reserve the periodic channel. *)
  let hcd := set_periodic_channels (periodic_channels hcd + 1) hcd in
  (* Update claimed usecs per (micro)frame. *)
  let hcd := set_periodic_usecs (periodic_usecs hcd + usecs qh) hcd in
  let hcd := set_bus (account_periodic 1 qh (bus hcd)) hcd in
  (status, hcd).

Definition dwc_otg_hcd_qh_add (hcd : dwc_otg_hcd_t) (p : qh_ptr)
    (qh : dwc_otg_qh_t) : Z * dwc_otg_hcd_t :=
  let status := 0 in
  if negb (qh_list_entry_empty hcd p) then
    (* QH already in a schedule. *)
    (status, hcd)
  else if dwc_qh_is_non_per qh then
    (status,
     set_non_periodic_sched_inactive
       (list_add_tail p (non_periodic_sched_inactive hcd)) hcd)
  else schedule_periodic hcd p qh.

(** *** Removal *)

Definition deschedule_periodic (hcd : dwc_otg_hcd_t) (p : qh_ptr)
    (qh : dwc_otg_qh_t) : dwc_otg_hcd_t :=
  let hcd := list_del_init p hcd in
  (* Release the periodic channel reservation. *)
  let hcd := set_periodic_channels (periodic_channels hcd - 1) hcd in
  (* Update claimed usecs per (micro)frame. *)
  let hcd := set_periodic_usecs (periodic_usecs hcd - usecs qh) hcd in
  set_bus (account_periodic (-1) qh (bus hcd)) hcd.

Definition dwc_otg_hcd_qh_remove (hcd : dwc_otg_hcd_t) (p : qh_ptr)
    (qh : dwc_otg_qh_t) : dwc_otg_hcd_t :=
  if qh_list_entry_empty hcd p then
    (* QH is not in a schedule. *)
    hcd
  else if dwc_qh_is_non_per qh then
    let hcd :=
      if list_head_ptr_eqb (non_periodic_qh_ptr hcd) (QH_LIST_ENTRY p)
      then set_non_periodic_qh_ptr
             (list_head_next hcd (non_periodic_qh_ptr hcd)) hcd
      else hcd in
    list_del_init p hcd
  else deschedule_periodic hcd p qh.

(** *** Deactivation *)

(** The frame a periodic QH is next scheduled in: the [if (qh->do_split)]
    statement of [dwc_otg_hcd_qh_deactivate], on its own. *)
Definition next_sched_frame (frame_number : Z) (qh : dwc_otg_qh_t)
    (sched_next_periodic_split : Z) : dwc_otg_qh_t :=
  if truthy (do_split qh) then
    (* Schedule the next continuing periodic split transfer *)
    if truthy sched_next_periodic_split then
      let qh := set_sched_frame frame_number qh in
      if dwc_frame_num_le frame_number
           (dwc_frame_num_inc (start_split_frame qh) 1)
      then
        if negb (usb_endpoint_xfer_eqb (ep_type qh) USB_ENDPOINT_XFER_ISOC)
           || truthy (ep_is_in qh)
        then set_sched_frame (dwc_frame_num_inc (sched_frame qh) 1) qh
        else qh
      else qh
    else
      let qh := set_sched_frame
                  (dwc_frame_num_inc (start_split_frame qh) (interval qh)) qh in
      let qh := if dwc_frame_num_le (sched_frame qh) frame_number
                then set_sched_frame frame_number qh else qh in
      let qh := set_sched_frame (Z.lor (sched_frame qh) 7) qh in
      set_start_split_frame (sched_frame qh) qh
  else
    let qh := set_sched_frame
                (dwc_frame_num_inc (sched_frame qh) (interval qh)) qh in
    if dwc_frame_num_le (sched_frame qh) frame_number
    then set_sched_frame frame_number qh else qh.

(** [list_move(&qh->qh_list_entry, head)]: unlink, then add at the head. *)
Definition list_move_periodic_sched_ready (p : qh_ptr) (hcd : dwc_otg_hcd_t) :=
  let hcd := list_del_init p hcd in
  set_periodic_sched_ready (list_add p (periodic_sched_ready hcd)) hcd.

Definition list_move_periodic_sched_inactive (p : qh_ptr) (hcd : dwc_otg_hcd_t) :=
  let hcd := list_del_init p hcd in
  set_periodic_sched_inactive (list_add p (periodic_sched_inactive hcd)) hcd.

Definition dwc_otg_hcd_qh_deactivate (hcd : dwc_otg_hcd_t) (p : qh_ptr)
    (qh : dwc_otg_qh_t) (sched_next_periodic_split : Z)
    : dwc_otg_hcd_t * dwc_otg_qh_t :=
  if dwc_qh_is_non_per qh then
    let hcd := dwc_otg_hcd_qh_remove hcd p qh in
    if negb (bool_decide (qtd_list qh = [])) then
      (* Add back to inactive non-periodic schedule. *)
      (snd (dwc_otg_hcd_qh_add hcd p qh), qh)
    else (hcd, qh)
  else
    let frame_number := to_uint16 (dwc_otg_hcd_get_frame_number hcd) in
    let qh := next_sched_frame frame_number qh sched_next_periodic_split in
    if bool_decide (qtd_list qh = []) then
      (dwc_otg_hcd_qh_remove hcd p qh, qh)
    else if sched_frame qh =? frame_number then
      (list_move_periodic_sched_ready p hcd, qh)
    else
      (list_move_periodic_sched_inactive p hcd, qh).

(** *** Queue transfer descriptors *)

(** The tail of [dwc_otg_hcd_qtd_add], once the QH is known. *)
Definition qtd_add_to_qh (qtd : qtd_ptr) (p : qh_ptr) (qh : dwc_otg_qh_t)
    (st : hcd_state) : Z * hcd_state :=
  let '(retval, hcd) := dwc_otg_hcd_qh_add (st_hcd st) p qh in
  if retval =? 0 then
    (retval,
     {| st_hcd := hcd;
        st_qh := <[p := set_qtd_list (qtd_list qh ++ [qtd]) qh]> (st_qh st);
        st_hcpriv := st_hcpriv st |})
  else
    (retval, {| st_hcd := hcd; st_qh := st_qh st; st_hcpriv := st_hcpriv st |}).

(** [dwc_otg_hcd_qtd_add]; [alloc] is the outcome of the allocation a new
    QH needs.  The result is [None] when [ep->hcpriv] points to no QH, which
    C leaves undefined. *)
Definition dwc_otg_hcd_qtd_add (alloc : option qh_ptr) (qtd : qtd_ptr)
    (q : dwc_otg_qtd_t) (st : hcd_state) : option (Z * hcd_state) :=
  let retval := 0 in
  let urb := qtd_urb q in
  let ep := urb_ep urb in
  match st_hcpriv st !! ep with
  | None =>
      match dwc_otg_hcd_qh_create (st_hcd st) urb alloc with
      | None => Some (retval, st)
      | Some (p, qh) =>
          Some (qtd_add_to_qh qtd p qh
                  {| st_hcd := st_hcd st;
                     st_qh := <[p := qh]> (st_qh st);
                     st_hcpriv := <[ep := p]> (st_hcpriv st) |})
      end
  | Some p =>
      match st_qh st !! p with
      | None => None
      | Some qh => Some (qtd_add_to_qh qtd p qh st)
      end
  end.


(** The periodic budget of a (micro)frame the comments of
    [check_periodic_bandwidth] give: 80% of 125 usec in high speed mode,
    90% of 1000 usec in full speed mode. *)
Definition periodic_budget (hcd : dwc_otg_hcd_t) : Z :=
  match speed (core_params hcd) with
  | DWC_SPEED_PARAM_HIGH => 100
  | DWC_SPEED_PARAM_FULL => 900
  end.

(** The state a successful [schedule_periodic] leaves. *)
Definition scheduled (hcd : dwc_otg_hcd_t) (p : qh_ptr) (qh : dwc_otg_qh_t) :=
  with_sched hcd (non_periodic_sched_inactive hcd) (non_periodic_sched_active hcd)
    (non_periodic_qh_ptr hcd)
    (list_add_tail p (periodic_sched_inactive hcd))
    (periodic_sched_ready hcd) (periodic_sched_queued hcd)
    (periodic_usecs hcd + usecs qh) (periodic_channels hcd + 1)
    (account_periodic 1 qh (bus hcd)).

(** ** The invariant of the schedules *)

(** The entries linked on the five schedules, schedule after schedule. *)
Definition sched_entries (hcd : dwc_otg_hcd_t) : list qh_ptr :=
  non_periodic_sched_inactive hcd ++ non_periodic_sched_active hcd
  ++ periodic_sched_inactive hcd ++ periodic_sched_ready hcd
  ++ periodic_sched_queued hcd.

(** A [qh_list_entry] is linked at one place of one list: no QH occurs
    twice on the schedules. *)
Definition sched_wf (hcd : dwc_otg_hcd_t) : Prop := NoDup (sched_entries hcd).

(** ** The driver on QHs in memory

    The callers hand the functions above a pointer; these read the QH at
    [p], run the function and store what it assigned.  The result is [None]
    when no QH is allocated at [p], which C leaves undefined. *)

Definition qh_add_at (p : qh_ptr) (st : hcd_state) : option (Z * hcd_state) :=
  match st_qh st !! p with
  | None => None
  | Some qh =>
      let '(status, hcd) := dwc_otg_hcd_qh_add (st_hcd st) p qh in
      Some (status,
            {| st_hcd := hcd; st_qh := st_qh st; st_hcpriv := st_hcpriv st |})
  end.

Definition qh_remove_at (p : qh_ptr) (st : hcd_state) : option hcd_state :=
  match st_qh st !! p with
  | None => None
  | Some qh =>
      Some {| st_hcd := dwc_otg_hcd_qh_remove (st_hcd st) p qh;
              st_qh := st_qh st; st_hcpriv := st_hcpriv st |}
  end.

Definition qh_deactivate_at (p : qh_ptr) (sched_next_periodic_split : Z)
    (st : hcd_state) : option hcd_state :=
  match st_qh st !! p with
  | None => None
  | Some qh =>
      let '(hcd, qh) :=
        dwc_otg_hcd_qh_deactivate (st_hcd st) p qh sched_next_periodic_split in
      Some {| st_hcd := hcd; st_qh := <[p := qh]> (st_qh st);
              st_hcpriv := st_hcpriv st |}
  end.

(** Queueing the QTDs [qtds], in this order, for the endpoint of the URB of
    [q]; each call may need to allocate the QH and gets [alloc].  The
    result holds the value of every call. *)
Fixpoint qtd_add_each (alloc : option qh_ptr) (qtds : list qtd_ptr)
    (q : dwc_otg_qtd_t) (st : hcd_state) : option (list Z * hcd_state) :=
  match qtds with
  | [] => Some ([], st)
  | qtd :: qtds =>
      match dwc_otg_hcd_qtd_add alloc qtd q st with
      | None => None
      | Some (retval, st) =>
          match qtd_add_each alloc qtds q st with
          | None => None
          | Some (retvals, st) => Some (retval :: retvals, st)
          end
      end
  end.

(** *** Freeing a QH *)

(** The memory [dwc_otg_hcd_qh_free] releases: besides the QHs, the QTDs
    that are allocated and the QHs whose [dw_align_buf] holds a buffer. *)
Record hcd_memory : Type := {
  mem_state : hcd_state;
  mem_qtd : gset qtd_ptr;
  mem_dw_align_buf : gset qh_ptr
}.

(** The loop of [dwc_otg_hcd_qh_free]: while the QTD list is not empty,
    its first entry is unlinked and the QTD freed. *)
Fixpoint qtd_list_free (qtds : list qtd_ptr) (allocated : gset qtd_ptr)
    : gset qtd_ptr :=
  match qtds with
  | [] => allocated
  | pos :: qtds => qtd_list_free qtds (allocated ∖ {[pos]})
  end.

Definition dwc_otg_hcd_qh_free (p : qh_ptr) (m : hcd_memory) : option hcd_memory :=
  match st_qh (mem_state m) !! p with
  | None => None
  | Some qh =>
      Some {| mem_state :=
                {| st_hcd := st_hcd (mem_state m);
                   st_qh := delete p (st_qh (mem_state m));
                   st_hcpriv := st_hcpriv (mem_state m) |};
              mem_qtd := qtd_list_free (qtd_list qh) (mem_qtd m);
              mem_dw_align_buf := mem_dw_align_buf m ∖ {[p]} |}
  end.

(** ** Invariants of the bookkeeping *)

Definition periodic_entries (hcd : dwc_otg_hcd_t) : list qh_ptr :=
  periodic_sched_inactive hcd ++ periodic_sched_ready hcd
  ++ periodic_sched_queued hcd.

Definition non_periodic_entries (hcd : dwc_otg_hcd_t) : list qh_ptr :=
  non_periodic_sched_inactive hcd ++ non_periodic_sched_active hcd.

(** [qh->usecs] of the QH at [p]. *)
Definition usecs_at (qhs : gmap qh_ptr dwc_otg_qh_t) (p : qh_ptr) : Z :=
  from_option usecs 0 (qhs !! p).

(** The microseconds the QHs of [l] need together. *)
Definition claimed_usecs (qhs : gmap qh_ptr dwc_otg_qh_t) (l : list qh_ptr) : Z :=
  foldr (λ p acc, usecs_at qhs p + acc) 0 l.

(** The bookkeeping is consistent: no QH is linked twice, every linked QH
    is allocated and on a schedule of its kind, [ep->hcpriv] points to
    allocated QHs, and the two periodic counters are the number of QHs on
    the periodic schedules and the microseconds these need. *)
Record accounted (st : hcd_state) : Prop := {
  acc_wf : sched_wf (st_hcd st);
  acc_periodic : ∀ p, p ∈ periodic_entries (st_hcd st) ->
    ∃ qh, st_qh st !! p = Some qh /\ dwc_qh_is_non_per qh = false;
  acc_non_periodic : ∀ p, p ∈ non_periodic_entries (st_hcd st) ->
    ∃ qh, st_qh st !! p = Some qh /\ dwc_qh_is_non_per qh = true;
  acc_hcpriv : ∀ ep p, st_hcpriv st !! ep = Some p -> is_Some (st_qh st !! p);
  acc_channels :
    periodic_channels (st_hcd st)
    = Z.of_nat (length (periodic_entries (st_hcd st)));
  acc_usecs :
    periodic_usecs (st_hcd st)
    = claimed_usecs (st_qh st) (periodic_entries (st_hcd st))
}.

(** One call into the file, as its callers make them: a QTD is queued
    (the allocator hands out memory that is not in use), a QH that is on a
    schedule is deactivated, a QH is removed or admitted, or a transfer
    completes and the QTD list of a QH changes. *)
Inductive hcd_step : hcd_state -> hcd_state -> Prop :=
| step_qtd_add alloc qtd q st retval st' :
    (∀ p, alloc = Some p -> st_qh st !! p = None) ->
    dwc_otg_hcd_qtd_add alloc qtd q st = Some (retval, st') ->
    hcd_step st st'
| step_qh_deactivate p sched_next_periodic_split st st' :
    in_schedule (st_hcd st) p ->
    qh_deactivate_at p sched_next_periodic_split st = Some st' ->
    hcd_step st st'
| step_qh_remove p st st' :
    qh_remove_at p st = Some st' ->
    hcd_step st st'
| step_qh_add p st status st' :
    qh_add_at p st = Some (status, st') ->
    hcd_step st st'
| step_qtd_list p qh qtds st :
    st_qh st !! p = Some qh ->
    hcd_step st {| st_hcd := st_hcd st;
                   st_qh := <[p := set_qtd_list qtds qh]> (st_qh st);
                   st_hcpriv := st_hcpriv st |}.

(** The periodic reservations respect the limits of the controller: a host
    channel is left for non-periodic transfers and the claimed time is
    within the budget of a (micro)frame. *)
Definition within_limits (hcd : dwc_otg_hcd_t) : Prop :=
  periodic_channels hcd <= host_channels (core_params hcd) - 1
  /\ periodic_usecs hcd <= periodic_budget hcd.

(** Between [hcd] and [hcd'] no QH but [p] has changed its schedule or its
    place among the others. *)
Definition others_kept (p : qh_ptr) (hcd hcd' : dwc_otg_hcd_t) : Prop :=
  ∀ b, list_del p (sched_list_of hcd' b) = list_del p (sched_list_of hcd b).

(** [hcd->non_periodic_qh_ptr] points to the head of a schedule or to the
    entry of a QH that is linked. *)
Definition cursor_valid (hcd : dwc_otg_hcd_t) : Prop :=
  match non_periodic_qh_ptr hcd with
  | QH_LIST_ENTRY q => in_schedule hcd q
  | SCHED_HEAD _ => True
  end.

(** ** Concrete configurations

    A high-speed controller with eight host channels, and QHs to run the
    driver on. *)

Definition params_hs : dwc_otg_core_params_t :=
  {| host_channels := 8; max_transfer_size := 65535; speed := DWC_SPEED_PARAM_HIGH |}.

Definition bus0 : usb_bus :=
  {| bandwidth_allocated := 0; bandwidth_int_reqs := 0; bandwidth_isoc_reqs := 0 |}.

(** An idle HCD: nothing scheduled, [pu] microseconds and [pc] channels
    claimed by periodic transfers. *)
Definition hcd_idle (pu pc : Z) : dwc_otg_hcd_t :=
  {| core_params := params_hs; hprt0 := DWC_HPRT0_PRTSPD_HIGH_SPEED; bus := bus0;
     non_periodic_sched_inactive := []; non_periodic_sched_active := [];
     non_periodic_qh_ptr := SCHED_HEAD NON_PERIODIC_SCHED_ACTIVE;
     periodic_sched_inactive := []; periodic_sched_ready := [];
     periodic_sched_queued := [];
     periodic_usecs := pu; periodic_channels := pc; non_periodic_channels := 0;
     frame_number := 100 |}.

(** The HCD with the QH at address 1 on the periodic inactive schedule. *)
Definition hcd_one (pu : Z) : dwc_otg_hcd_t :=
  set_periodic_sched_inactive [1%positive] (hcd_idle pu 1).

(** An interrupt IN QH needing [u] microseconds every [i] frames, next due
    in frame [sf]. *)
Definition qh_int (u i sf : Z) (qtds : list qtd_ptr) : dwc_otg_qh_t :=
  {| ep_type := USB_ENDPOINT_XFER_INT; ep_is_in := 1;
     data_toggle := DWC_OTG_HC_PID_DATA0; maxp := 64; do_split := 0;
     usecs := u; interval := i; sched_frame := sf; start_split_frame := 0;
     qtd_list := qtds |}.

(** A bulk OUT QH with one QTD queued. *)
Definition qh_bulk : dwc_otg_qh_t :=
  {| ep_type := USB_ENDPOINT_XFER_BULK; ep_is_in := 0;
     data_toggle := DWC_OTG_HC_PID_DATA0; maxp := 512; do_split := 0;
     usecs := 0; interval := 0; sched_frame := 0; start_split_frame := 0;
     qtd_list := [1%positive] |}.

(** A split QH of type [t] and direction [dir] whose start split went out
    in frame [ssf]. *)
Definition qh_split (t : usb_endpoint_xfer) (dir ssf : Z) : dwc_otg_qh_t :=
  {| ep_type := t; ep_is_in := dir;
     data_toggle := DWC_OTG_HC_PID_DATA0; maxp := 64; do_split := 1;
     usecs := 50; interval := 8; sched_frame := ssf; start_split_frame := ssf;
     qtd_list := [1%positive] |}.

(** An interrupt IN URB of a device of speed [s], polled every [i] frames. *)
Definition urb_int (s : usb_device_speed) (i : Z) : urb_t :=
  {| urb_pipetype := PIPE_INTERRUPT; urb_pipein := true; urb_maxpacket := 8;
     urb_dev_speed := s; urb_dev_tt_hub_devnum := Some 2; urb_interval := i;
     urb_ep := 1%positive |}.

(** A memory with nothing allocated around the idle HCD. *)
Definition st_idle : hcd_state :=
  {| st_hcd := hcd_idle 0 0; st_qh := ∅; st_hcpriv := ∅ |}.

(** The memory around [hcd_one 50]: the scheduled QH is allocated at
    address 1 and is [hcpriv] of endpoint 1. *)
Definition st_one : hcd_state :=
  {| st_hcd := hcd_one 50;
     st_qh := {[ 1%positive := qh_int 50 4 100 [] ]};
     st_hcpriv := {[ 1%positive := 1%positive ]} |}.

(** The idle HCD with 60 microseconds claimed, nothing allocated. *)
Definition st_busy : hcd_state :=
  {| st_hcd := hcd_idle 60 0; st_qh := ∅; st_hcpriv := ∅ |}.

(** Two bulk QHs on the inactive non-periodic schedule, the cursor on the
    first. *)
Definition hcd_bulk : dwc_otg_hcd_t :=
  set_non_periodic_qh_ptr (QH_LIST_ENTRY 1%positive)
    (set_non_periodic_sched_inactive [1%positive; 2%positive] (hcd_idle 0 0)).

(** A QH with two QTDs that is on no schedule and no endpoint's [hcpriv];
    three QTDs are allocated and the QH holds an aligned buffer. *)
Definition mem_unlinked : hcd_memory :=
  {| mem_state :=
       {| st_hcd := hcd_idle 0 0;
          st_qh := {[ 1%positive := qh_int 50 4 100 [5%positive; 6%positive] ]};
          st_hcpriv := ∅ |};
     mem_qtd := {[ 5%positive; 6%positive; 7%positive ]};
     mem_dw_align_buf := {[ 1%positive ]} |}.

(** The memory of [st_one] with nothing else allocated. *)
Definition mem_one : hcd_memory :=
  {| mem_state := st_one; mem_qtd := ∅; mem_dw_align_buf := ∅ |}.

(** The helpers of the USB core for the concrete runs: every transfer
    takes 50000 ns. *)
Definition bus_time_50us (_ : usb_device_speed) (_ _ : bool) (_ : Z) : Z := 50000.
Definition ns_to_us (ns : Z) : Z := ns / 1000.

(** Frame arithmetic without wrap-around, and the two fields of
    [wMaxPacketSize]. *)
Definition frame_num_inc_plain (frame inc : Z) : Z := frame + inc.
Definition frame_num_le_plain (frame1 frame2 : Z) : bool := frame1 <=? frame2.

Definition max_packet_field (w : Z) : Z := Z.land w 2047.
Definition hb_mult_field (w : Z) : Z := 1 + Z.land (Z.shiftr w 11) 3.

(** ** Properties *)

(** Drops from a goal the helpers it does not mention. *)
Ltac clear_helpers :=
  repeat match goal with
         | f : Z -> _ |- _ => clear f
         | f : usb_device_speed -> _ |- _ => clear f
         | f : dwc_otg_hcd_t -> Z |- _ => clear f
         end.

Lemma truthy_0 : truthy 0 = false.
Proof. reflexivity. Qed.

Lemma truthy_ENOSPC : truthy (- ENOSPC) = true.
Proof. reflexivity. Qed.

Lemma to_uint16_range x : 0 <= to_uint16 x < 2 ^ 16.
Proof. unfold to_uint16. apply Z.mod_pos_bound. lia. Qed.

Lemma to_uint16_small x : 0 <= x < 2 ^ 16 -> to_uint16 x = x.
Proof. intros H. unfold to_uint16. apply Z.mod_small. exact H. Qed.

Lemma to_uint16_wrap x : - 2 ^ 16 <= x < 0 -> to_uint16 x = x + 2 ^ 16.
Proof.
  intros H. unfold to_uint16.
  symmetry. apply (Z.mod_unique x (2 ^ 16) (-1) (x + 2 ^ 16)); lia.
Qed.

(** *** The schedules as lists *)

Lemma qh_list_entry_empty_true hcd p :
  qh_list_entry_empty hcd p = true <-> ~ in_schedule hcd p.
Proof.
  unfold qh_list_entry_empty, in_schedule, all_sched_lists. cbn [forallb].
  rewrite !andb_true_iff, !bool_decide_eq_true. split.
  - intros (H1 & H2 & H3 & H4 & H5 & _) [b Hb]. destruct b; cbn in Hb; clear_helpers; tauto.
  - intros H.
    assert (Hb : ∀ b, p ∉ sched_list_of hcd b) by (intros b Hin; apply H; eauto).
    pose proof (Hb NON_PERIODIC_SCHED_INACTIVE).
    pose proof (Hb NON_PERIODIC_SCHED_ACTIVE).
    pose proof (Hb PERIODIC_SCHED_INACTIVE).
    pose proof (Hb PERIODIC_SCHED_READY).
    pose proof (Hb PERIODIC_SCHED_QUEUED). clear_helpers; tauto.
Qed.

Lemma qh_list_entry_empty_false hcd p :
  qh_list_entry_empty hcd p = false <-> in_schedule hcd p.
Proof.
  split.
  - unfold qh_list_entry_empty, all_sched_lists. cbn [forallb]. intros H.
    repeat (apply andb_false_iff in H as [H|H]); try discriminate H;
      apply bool_decide_eq_false in H; apply dec_stable in H.
    + exists NON_PERIODIC_SCHED_INACTIVE. exact H.
    + exists NON_PERIODIC_SCHED_ACTIVE. exact H.
    + exists PERIODIC_SCHED_INACTIVE. exact H.
    + exists PERIODIC_SCHED_READY. exact H.
    + exists PERIODIC_SCHED_QUEUED. exact H.
  - intros H. apply not_true_iff_false. rewrite qh_list_entry_empty_true. clear_helpers; tauto.
Qed.

Lemma not_elem_of_list_del p l : p ∉ list_del p l.
Proof. unfold list_del. rewrite list_elem_of_filter. clear_helpers; tauto. Qed.

Lemma elem_of_list_del_ne p q l : q ≠ p -> q ∈ list_del p l <-> q ∈ l.
Proof. intros H. unfold list_del. rewrite list_elem_of_filter. clear_helpers; tauto. Qed.

Lemma list_del_not_elem_of p l : p ∉ l -> list_del p l = l.
Proof.
  unfold list_del. induction l as [|x l IH]; intros H; [reflexivity|].
  rewrite not_elem_of_cons in H. destruct H as [Hx Hl].
  rewrite filter_cons_True by congruence. f_equal. auto.
Qed.

Lemma list_del_add_tail p l : p ∉ l -> list_del p (list_add_tail p l) = l.
Proof.
  intros H. unfold list_del, list_add_tail. rewrite filter_app.
  fold (list_del p l). rewrite list_del_not_elem_of by exact H.
  rewrite filter_cons_False by (clear_helpers; tauto). rewrite filter_nil. apply app_nil_r.
Qed.

Lemma list_del_init_not_in_schedule hcd p : ~ in_schedule (list_del_init p hcd) p.
Proof.
  intros [b Hb]. destruct b; cbn in Hb; exact (not_elem_of_list_del _ _ Hb).
Qed.
(** *** Admission *)

Lemma periodic_channel_available_cases hcd :
  periodic_channel_available hcd = 0 \/ periodic_channel_available hcd = - ENOSPC.
Proof. unfold periodic_channel_available. case (_ && _); auto. Qed.

Lemma check_periodic_bandwidth_cases hcd qh :
  check_periodic_bandwidth hcd qh = 0 \/ check_periodic_bandwidth hcd qh = - ENOSPC.
Proof. unfold check_periodic_bandwidth. case (_ >? _); auto. Qed.

Lemma check_max_xfer_size_cases hcd qh :
  check_max_xfer_size hcd qh = 0 \/ check_max_xfer_size hcd qh = - ENOSPC.
Proof. unfold check_max_xfer_size. case (_ >? _); auto. Qed.

Lemma periodic_channel_available_0 hcd :
  periodic_channel_available hcd = 0 <->
  periodic_channels hcd + non_periodic_channels hcd < host_channels (core_params hcd)
  /\ periodic_channels hcd < host_channels (core_params hcd) - 1.
Proof.
  unfold periodic_channel_available.
  rewrite <- !Z.ltb_lt, <- andb_true_iff.
  case (_ && _); split; intros H; try reflexivity; discriminate H.
Qed.

Lemma schedule_periodic_granted hcd p qh :
  periodic_channel_available hcd = 0 ->
  check_periodic_bandwidth hcd qh = 0 ->
  check_max_xfer_size hcd qh = 0 ->
  schedule_periodic hcd p qh = (0, scheduled hcd p qh).
Proof.
  intros H1 H2 H3. unfold schedule_periodic.
  rewrite H1, H2, H3. reflexivity.
Qed.

Lemma schedule_periodic_denied hcd p qh :
  periodic_channel_available hcd <> 0
  \/ check_periodic_bandwidth hcd qh <> 0
  \/ check_max_xfer_size hcd qh <> 0 ->
  schedule_periodic hcd p qh = (- ENOSPC, hcd).
Proof.
  unfold schedule_periodic.
  destruct (periodic_channel_available_cases hcd) as [-> | ->];
    [|reflexivity].
  destruct (check_periodic_bandwidth_cases hcd qh) as [-> | ->];
    [|reflexivity].
  destruct (check_max_xfer_size_cases hcd qh) as [-> | ->];
    [|reflexivity].
  intros [H | [H | H]]; contradiction.
Qed.

Lemma schedule_periodic_cases hcd p qh :
  schedule_periodic hcd p qh = (0, scheduled hcd p qh)
  \/ schedule_periodic hcd p qh = (- ENOSPC, hcd).
Proof.
  destruct (periodic_channel_available_cases hcd) as [H1 | H1];
    [|right; apply schedule_periodic_denied; rewrite H1; left; discriminate].
  destruct (check_periodic_bandwidth_cases hcd qh) as [H2 | H2];
    [|right; apply schedule_periodic_denied; rewrite H2; right; left; discriminate].
  destruct (check_max_xfer_size_cases hcd qh) as [H3 | H3];
    [|right; apply schedule_periodic_denied; rewrite H3; right; right; discriminate].
  left. apply schedule_periodic_granted; assumption.
Qed.

Lemma qh_add_periodic hcd p qh :
  dwc_qh_is_non_per qh = false ->
  ~ in_schedule hcd p ->
  dwc_otg_hcd_qh_add hcd p qh = schedule_periodic hcd p qh.
Proof.
  intros Hper Hout. unfold dwc_otg_hcd_qh_add.
  apply qh_list_entry_empty_true in Hout. rewrite Hout, Hper. reflexivity.
Qed.

Lemma qh_add_scheduled hcd p qh :
  in_schedule hcd p -> dwc_otg_hcd_qh_add hcd p qh = (0, hcd).
Proof.
  intros Hin. unfold dwc_otg_hcd_qh_add.
  apply qh_list_entry_empty_false in Hin. rewrite Hin. reflexivity.
Qed.

(** C1 (P6, admission failure is transactional): when
    [dwc_otg_hcd_qh_add] returns [-ENOSPC] for a periodic QH, the HCD it
    leaves is the HCD it was given: [periodic_channels], [periodic_usecs],
    [non_periodic_channels] and the five schedules are unchanged. *)
Theorem qh_add_denied_leaves_hcd hcd p qh hcd' :
  dwc_qh_is_non_per qh = false ->
  dwc_otg_hcd_qh_add hcd p qh = (- ENOSPC, hcd') ->
  periodic_channels hcd' = periodic_channels hcd
  /\ periodic_usecs hcd' = periodic_usecs hcd
  /\ non_periodic_channels hcd' = non_periodic_channels hcd
  /\ (forall b, sched_list_of hcd' b = sched_list_of hcd b)
  /\ hcd' = hcd.
Proof.
  intros Hper Hadd.
  assert (E : hcd' = hcd).
  { unfold dwc_otg_hcd_qh_add in Hadd. rewrite Hper in Hadd.
    destruct (qh_list_entry_empty hcd p); cbn in Hadd.
    - destruct (schedule_periodic_cases hcd p qh) as [H | H];
        rewrite H in Hadd; inversion Hadd; reflexivity.
    - inversion Hadd. }
  subst hcd'. auto.
Qed.

(** C7 (channel availability): for a periodic QH that is on no schedule,
    admission is refused with [-ENOSPC], the HCD untouched, unless
    [periodic_channels + non_periodic_channels < host_channels] and
    [periodic_channels < host_channels - 1]; when both hold the channel
    check returns 0, and if the bandwidth and transfer size checks pass
    too, admission succeeds and [periodic_channels] grows by exactly one. *)
Theorem channel_availability hcd p qh :
  dwc_qh_is_non_per qh = false ->
  ~ in_schedule hcd p ->
  let available :=
    periodic_channels hcd + non_periodic_channels hcd < host_channels (core_params hcd)
    /\ periodic_channels hcd < host_channels (core_params hcd) - 1 in
  (~ available ->
     periodic_channel_available hcd = - ENOSPC
     /\ dwc_otg_hcd_qh_add hcd p qh = (- ENOSPC, hcd))
  /\ (available ->
        periodic_channel_available hcd = 0
        /\ (check_periodic_bandwidth hcd qh = 0 ->
            check_max_xfer_size hcd qh = 0 ->
            fst (dwc_otg_hcd_qh_add hcd p qh) = 0
            /\ periodic_channels (snd (dwc_otg_hcd_qh_add hcd p qh))
               = periodic_channels hcd + 1)).
Proof.
  intros Hper Hout available. rewrite (qh_add_periodic hcd p qh Hper Hout).
  pose proof (periodic_channel_available_0 hcd) as H0. fold available in H0.
  split.
  - intros Hno.
    assert (H : periodic_channel_available hcd <> 0) by (clear_helpers; tauto).
    split.
    + destruct (periodic_channel_available_cases hcd); clear_helpers; tauto.
    + apply schedule_periodic_denied. auto.
  - intros Hyes. apply H0 in Hyes. split; [exact Hyes|].
    intros H2 H3. rewrite (schedule_periodic_granted hcd p qh Hyes H2 H3).
    split; reflexivity.
Qed.

(** C8 (P3, admission idempotence): for a QH that is already on one of
    the schedules, [dwc_otg_hcd_qh_add] returns 0 and leaves the HCD as it
    was: no schedule gains an entry and neither [periodic_channels] nor
    [periodic_usecs] is counted a second time. *)
Theorem qh_add_idempotent hcd p qh :
  in_schedule hcd p ->
  fst (dwc_otg_hcd_qh_add hcd p qh) = 0
  /\ snd (dwc_otg_hcd_qh_add hcd p qh) = hcd
  /\ (forall b, sched_list_of (snd (dwc_otg_hcd_qh_add hcd p qh)) b = sched_list_of hcd b)
  /\ periodic_channels (snd (dwc_otg_hcd_qh_add hcd p qh)) = periodic_channels hcd
  /\ periodic_usecs (snd (dwc_otg_hcd_qh_add hcd p qh)) = periodic_usecs hcd.
Proof.
  intros Hin. rewrite (qh_add_scheduled hcd p qh Hin). cbn. auto.
Qed.

(** A successful admission puts the QH on a schedule, so that admitting it
    once more finds it there. *)
Lemma qh_add_in_schedule hcd p qh :
  fst (dwc_otg_hcd_qh_add hcd p qh) = 0 ->
  in_schedule (snd (dwc_otg_hcd_qh_add hcd p qh)) p.
Proof.
  unfold dwc_otg_hcd_qh_add.
  destruct (qh_list_entry_empty hcd p) eqn:E; cbn.
  - destruct (dwc_qh_is_non_per qh); cbn.
    + intros _. exists NON_PERIODIC_SCHED_INACTIVE. cbn.
      unfold list_add_tail. clear_helpers; set_solver.
    + destruct (schedule_periodic_cases hcd p qh) as [H | H]; rewrite H; cbn.
      * intros _. exists PERIODIC_SCHED_INACTIVE. cbn.
        unfold list_add_tail. clear_helpers; set_solver.
      * discriminate.
  - intros _. apply qh_list_entry_empty_false. exact E.
Qed.

(** *** The bandwidth check *)

Lemma max_claimed_usecs_eq hcd qh :
  max_claimed_usecs hcd qh = to_uint16 (periodic_budget hcd - usecs qh).
Proof.
  unfold max_claimed_usecs, periodic_budget.
  destruct (speed (core_params hcd)); reflexivity.
Qed.

Lemma check_periodic_bandwidth_0 hcd qh :
  check_periodic_bandwidth hcd qh = 0 <->
  periodic_usecs hcd <= max_claimed_usecs hcd qh.
Proof.
  unfold check_periodic_bandwidth.
  destruct (Z.gtb_spec (periodic_usecs hcd) (max_claimed_usecs hcd qh)) as [H|H];
    split; intros H'; try reflexivity; try lia; discriminate H'.
Qed.

(** Within the budget nothing wraps, and the check is the comparison of
    the spec: it fails exactly when [periodic_usecs > budget - usecs]. *)
Lemma check_periodic_bandwidth_within_budget hcd qh :
  0 <= usecs qh <= periodic_budget hcd ->
  max_claimed_usecs hcd qh = periodic_budget hcd - usecs qh
  /\ (check_periodic_bandwidth hcd qh = - ENOSPC <->
      periodic_usecs hcd > periodic_budget hcd - usecs qh).
Proof.
  intros Hu.
  assert (E : max_claimed_usecs hcd qh = periodic_budget hcd - usecs qh).
  { rewrite max_claimed_usecs_eq. apply to_uint16_small.
    unfold periodic_budget in *. destruct (speed (core_params hcd)); lia. }
  split; [exact E|].
  pose proof (check_periodic_bandwidth_0 hcd qh) as H0. rewrite E in H0.
  destruct (check_periodic_bandwidth_cases hcd qh) as [H | H]; rewrite H in *.
  - split; [discriminate|]. intros Hgt.
    assert (periodic_usecs hcd <= periodic_budget hcd - usecs qh) by (clear_helpers; tauto). lia.
  - split; [|reflexivity]. intros _.
    destruct (Z_le_gt_dec (periodic_usecs hcd) (periodic_budget hcd - usecs qh))
      as [Hle | Hgt]; [|exact Hgt].
    apply H0 in Hle. discriminate Hle.
Qed.

(** C3, as amended: the subtraction is stored in a [uint16_t].  For a QH
    whose [usecs] (a 16-bit quantity) exceeds the budget, 100 or 900,
    [max_claimed_usecs] wraps around to [2^16 - (usecs - budget)]; the check
    then passes exactly when [periodic_usecs] is at most that value, and in
    particular whenever the microseconds claimed so far are within the
    budget: such a QH, given a free channel and an admissible transfer
    size, is admitted although it needs more than the whole budget. *)
Theorem bandwidth_check_wraps hcd p qh :
  periodic_budget hcd < usecs qh < 2 ^ 16 ->
  max_claimed_usecs hcd qh = 2 ^ 16 - (usecs qh - periodic_budget hcd)
  /\ (check_periodic_bandwidth hcd qh = 0 <->
      periodic_usecs hcd <= 2 ^ 16 - (usecs qh - periodic_budget hcd))
  /\ (periodic_usecs hcd <= periodic_budget hcd ->
      check_periodic_bandwidth hcd qh = 0
      /\ (periodic_channel_available hcd = 0 ->
          check_max_xfer_size hcd qh = 0 ->
          schedule_periodic hcd p qh = (0, scheduled hcd p qh))).
Proof.
  intros Hu.
  assert (Hb : 0 < periodic_budget hcd < 2 ^ 16)
    by (unfold periodic_budget; destruct (speed (core_params hcd)); lia).
  assert (E : max_claimed_usecs hcd qh = 2 ^ 16 - (usecs qh - periodic_budget hcd)).
  { rewrite max_claimed_usecs_eq, to_uint16_wrap; lia. }
  pose proof (check_periodic_bandwidth_0 hcd qh) as H0. rewrite E in H0.
  split; [exact E|]. split; [exact H0|].
  intros Hpu.
  assert (H2 : check_periodic_bandwidth hcd qh = 0) by (apply H0; lia).
  split; [exact H2|].
  intros H1 H3. apply schedule_periodic_granted; assumption.
Qed.

(** *** Deactivation *)

Lemma truthy_true x : x <> 0 -> truthy x = true.
Proof. intros H. unfold truthy. apply negb_true_iff, Z.eqb_neq, H. Qed.

(** Rescheduling touches [sched_frame] and [start_split_frame] only. *)
Lemma next_sched_frame_fields frame_number qh snps :
  let qh' := next_sched_frame frame_number qh snps in
  ep_type qh' = ep_type qh /\ ep_is_in qh' = ep_is_in qh
  /\ do_split qh' = do_split qh /\ usecs qh' = usecs qh
  /\ interval qh' = interval qh /\ qtd_list qh' = qtd_list qh.
Proof.
  unfold next_sched_frame.
  repeat match goal with
         | |- context [if ?c then _ else _] => destruct c
         end; cbn; auto 10.
Qed.

Lemma deactivate_periodic_qh hcd p qh snps :
  dwc_qh_is_non_per qh = false ->
  snd (dwc_otg_hcd_qh_deactivate hcd p qh snps)
  = next_sched_frame (to_uint16 (dwc_otg_hcd_get_frame_number hcd)) qh snps.
Proof.
  intros Hper. unfold dwc_otg_hcd_qh_deactivate. rewrite Hper.
  destruct (bool_decide _); [reflexivity|].
  destruct (_ =? _); reflexivity.
Qed.

Lemma deschedule_periodic_eq hcd p qh :
  deschedule_periodic hcd p qh
  = with_sched hcd
      (list_del p (non_periodic_sched_inactive hcd))
      (list_del p (non_periodic_sched_active hcd))
      (non_periodic_qh_ptr hcd)
      (list_del p (periodic_sched_inactive hcd))
      (list_del p (periodic_sched_ready hcd))
      (list_del p (periodic_sched_queued hcd))
      (periodic_usecs hcd - usecs qh) (periodic_channels hcd - 1)
      (account_periodic (-1) qh (bus hcd)).
Proof. reflexivity. Qed.

Lemma deactivate_periodic_drained hcd p qh snps :
  dwc_qh_is_non_per qh = false ->
  in_schedule hcd p ->
  qtd_list qh = [] ->
  fst (dwc_otg_hcd_qh_deactivate hcd p qh snps)
  = deschedule_periodic hcd p
      (next_sched_frame (to_uint16 (dwc_otg_hcd_get_frame_number hcd)) qh snps).
Proof.
  intros Hper Hin Hq. unfold dwc_otg_hcd_qh_deactivate. rewrite Hper.
  set (qh' := next_sched_frame _ qh snps).
  destruct (next_sched_frame_fields
              (to_uint16 (dwc_otg_hcd_get_frame_number hcd)) qh snps)
    as (Ht & _ & _ & _ & _ & Hl).
  fold qh' in Ht, Hl.
  rewrite bool_decide_eq_true_2 by congruence. cbn [fst].
  unfold dwc_otg_hcd_qh_remove.
  apply qh_list_entry_empty_false in Hin. rewrite Hin.
  unfold dwc_qh_is_non_per in *. rewrite Ht, Hper. reflexivity.
Qed.

Lemma account_periodic_inverse qh qh' b :
  ep_type qh' = ep_type qh -> usecs qh' = usecs qh -> interval qh' = interval qh ->
  account_periodic (-1) qh' (account_periodic 1 qh b) = b.
Proof.
  intros Ht Hu Hi. unfold account_periodic. rewrite Ht, Hu, Hi.
  destruct b as [a i s].
  destruct (usb_endpoint_xfer_eqb _ _); cbn; f_equal; lia.
Qed.

(** Removing a periodic QH undoes its admission. *)
Lemma deschedule_periodic_scheduled hcd p qh qh' :
  ~ in_schedule hcd p ->
  ep_type qh' = ep_type qh -> usecs qh' = usecs qh -> interval qh' = interval qh ->
  deschedule_periodic (scheduled hcd p qh) p qh' = hcd.
Proof.
  intros Hout Ht Hu Hi.
  assert (Hb : forall b, p ∉ sched_list_of hcd b)
    by (intros b Hin; apply Hout; exists b; exact Hin).
  pose proof (Hb NON_PERIODIC_SCHED_INACTIVE) as H1.
  pose proof (Hb NON_PERIODIC_SCHED_ACTIVE) as H2.
  pose proof (Hb PERIODIC_SCHED_INACTIVE) as H3.
  pose proof (Hb PERIODIC_SCHED_READY) as H4.
  pose proof (Hb PERIODIC_SCHED_QUEUED) as H5.
  rewrite deschedule_periodic_eq. unfold scheduled, with_sched.
  cbn [core_params hprt0 bus non_periodic_sched_inactive
       non_periodic_sched_active non_periodic_qh_ptr periodic_sched_inactive
       periodic_sched_ready periodic_sched_queued periodic_usecs
       periodic_channels non_periodic_channels frame_number sched_list_of] in *.
  rewrite (list_del_not_elem_of _ _ H1), (list_del_not_elem_of _ _ H2),
    (list_del_not_elem_of _ _ H4), (list_del_not_elem_of _ _ H5),
    (list_del_add_tail _ _ H3), Hu.
  rewrite (account_periodic_inverse qh qh' _ Ht Hu Hi).
  destruct hcd; cbn. f_equal; lia.
Qed.

(** C5 (continuing a periodic split): for a periodic QH with [do_split]
    set, deactivated with [sched_next_periodic_split] set, [sched_frame]
    becomes the current frame number, advanced by one frame when the
    current frame is within one frame of [start_split_frame]
    ([dwc_frame_num_le (frame_number, dwc_frame_num_inc (start_split_frame,
    1))]), unless the QH is an isochronous OUT endpoint; and
    [start_split_frame] stays as it was. *)
Theorem deactivate_split_continuation hcd p qh snps :
  dwc_qh_is_non_per qh = false ->
  do_split qh <> 0 ->
  snps <> 0 ->
  let frame_number := to_uint16 (dwc_otg_hcd_get_frame_number hcd) in
  let qh' := snd (dwc_otg_hcd_qh_deactivate hcd p qh snps) in
  let within_one_frame :=
    dwc_frame_num_le frame_number (dwc_frame_num_inc (start_split_frame qh) 1) in
  let isoc_out :=
    usb_endpoint_xfer_eqb (ep_type qh) USB_ENDPOINT_XFER_ISOC
    && (ep_is_in qh =? 0) in
  sched_frame qh'
  = (if within_one_frame && negb isoc_out
     then dwc_frame_num_inc frame_number 1 else frame_number)
  /\ start_split_frame qh' = start_split_frame qh.
Proof.
  intros Hper Hsplit Hnext frame_number qh' within_one_frame isoc_out.
  subst qh'. rewrite (deactivate_periodic_qh hcd p qh snps Hper).
  fold frame_number. unfold next_sched_frame.
  rewrite (truthy_true _ Hsplit), (truthy_true _ Hnext).
  cbn [set_sched_frame start_split_frame sched_frame ep_type ep_is_in].
  fold within_one_frame. subst isoc_out. unfold truthy.
  destruct within_one_frame; cbn [andb]; [|split; reflexivity].
  destruct (usb_endpoint_xfer_eqb (ep_type qh) USB_ENDPOINT_XFER_ISOC); cbn;
    [|split; reflexivity].
  destruct (ep_is_in qh =? 0); cbn; split; reflexivity.
Qed.

(** C10 (withdrawal undoes admission): deactivating a periodic QH that is
    on a schedule and whose QTD list is empty takes it off every schedule,
    decrements [periodic_channels] by one and [periodic_usecs] by the QH's
    [usecs]; and when the HCD is the one its admission left, the HCD is
    back to what it was before the admission. *)
Theorem deactivate_drained_withdraws hcd p qh snps :
  dwc_qh_is_non_per qh = false ->
  in_schedule hcd p ->
  qtd_list qh = [] ->
  let hcd' := fst (dwc_otg_hcd_qh_deactivate hcd p qh snps) in
  (forall b, p ∉ sched_list_of hcd' b)
  /\ (forall b q, q <> p -> q ∈ sched_list_of hcd' b <-> q ∈ sched_list_of hcd b)
  /\ periodic_channels hcd' = periodic_channels hcd - 1
  /\ periodic_usecs hcd' = periodic_usecs hcd - usecs qh
  /\ (forall hcd0, ~ in_schedule hcd0 p ->
        dwc_otg_hcd_qh_add hcd0 p qh = (0, hcd) -> hcd' = hcd0).
Proof.
  intros Hper Hin Hq hcd'. subst hcd'.
  rewrite (deactivate_periodic_drained hcd p qh snps Hper Hin Hq).
  set (qh' := next_sched_frame _ qh snps).
  destruct (next_sched_frame_fields
              (to_uint16 (dwc_otg_hcd_get_frame_number hcd)) qh snps)
    as (Ht & _ & _ & Hu & Hi & _).
  fold qh' in Ht, Hu, Hi.
  repeat split.
  - intros b. rewrite deschedule_periodic_eq.
    destruct b; cbn; apply not_elem_of_list_del.
  - rewrite deschedule_periodic_eq.
    destruct b; cbn; apply elem_of_list_del_ne; assumption.
  - rewrite deschedule_periodic_eq.
    destruct b; cbn; apply elem_of_list_del_ne; assumption.
  - rewrite deschedule_periodic_eq, Hu. reflexivity.
  - intros hcd0 Hout Hadd.
    rewrite (qh_add_periodic hcd0 p qh Hper Hout) in Hadd.
    destruct (schedule_periodic_cases hcd0 p qh) as [H | H];
      rewrite H in Hadd; inversion Hadd; subst hcd.
    apply deschedule_periodic_scheduled; assumption.
Qed.

(** *** Queue head initialisation *)

Lemma lor_land_same x m : Z.land (Z.lor x m) m = m.
Proof.
  apply Z.bits_inj'. intros n Hn.
  rewrite Z.land_spec, Z.lor_spec.
  destruct (Z.testbit x n), (Z.testbit m n); reflexivity.
Qed.

Lemma lor_7_high_bits x n : 3 <= n -> Z.testbit (Z.lor x 7) n = Z.testbit x n.
Proof.
  intros Hn. rewrite Z.lor_spec.
  replace (Z.testbit 7 n) with false; [apply orb_false_r|].
  symmetry. change 7 with (Z.ones 3). apply Z.ones_spec_high. lia.
Qed.

(** C9 (scheduling parameters of a new periodic QH): for an interrupt or
    isochronous URB, [sched_frame] starts at the frame number kept in the
    HCD advanced by [SCHEDULE_SLOP = 10] and [interval] is copied from the
    URB.  When the port runs at high speed and the device is low or full
    speed, the interval is multiplied by 8, the three low bits of
    [sched_frame] are set (the other bits stay) and the result is also
    [start_split_frame]; for the other speed combinations [interval] and
    [sched_frame] stay as computed. *)
Theorem qh_init_periodic_schedule hcd urb :
  urb_pipetype urb = PIPE_INTERRUPT \/ urb_pipetype urb = PIPE_ISOCHRONOUS ->
  let qh := dwc_otg_hcd_qh_init hcd urb in
  let start := dwc_frame_num_inc (frame_number hcd) SCHEDULE_SLOP in
  let hs_port_ls_fs_device :=
    hprt0 hcd = DWC_HPRT0_PRTSPD_HIGH_SPEED
    /\ (urb_dev_speed urb = USB_SPEED_LOW \/ urb_dev_speed urb = USB_SPEED_FULL) in
  SCHEDULE_SLOP = 10
  /\ ((forall frame inc, dwc_frame_num_inc frame inc = frame + inc) ->
      start = frame_number hcd + 10)
  /\ (hs_port_ls_fs_device ->
        interval qh = urb_interval urb * 8
        /\ sched_frame qh = Z.lor start 7
        /\ Z.land (sched_frame qh) 7 = 7
        /\ (forall n, 3 <= n -> Z.testbit (sched_frame qh) n = Z.testbit start n)
        /\ start_split_frame qh = sched_frame qh)
  /\ (~ hs_port_ls_fs_device ->
        interval qh = urb_interval urb /\ sched_frame qh = start).
Proof.
  intros Hpipe qh start hs.
  split; [reflexivity|].
  split; [intros Hplain; subst start; rewrite Hplain; reflexivity|].
  assert (E : qh =
    let qh0 := dwc_otg_hcd_qh_init hcd urb in
    match hprt0 hcd with
    | DWC_HPRT0_PRTSPD_HIGH_SPEED =>
        if is_low_or_full (urb_dev_speed urb)
        then set_start_split_frame (Z.lor start 7)
               (set_sched_frame (Z.lor start 7)
                  (set_interval (urb_interval urb * 8) qh0))
        else set_sched_frame start (set_interval (urb_interval urb) qh0)
    | _ => set_sched_frame start (set_interval (urb_interval urb) qh0)
    end).
  { subst qh start. unfold dwc_otg_hcd_qh_init.
    destruct Hpipe as [-> | ->]; cbn;
      destruct (hprt0 hcd); try reflexivity;
      destruct (is_low_or_full (urb_dev_speed urb)); reflexivity. }
  split.
  - intros [Hport Hdev]. rewrite E. cbn zeta. rewrite Hport.
    replace (is_low_or_full (urb_dev_speed urb)) with true
      by (destruct Hdev as [-> | ->]; reflexivity).
    cbn. repeat split.
    + apply lor_land_same.
    + intros n Hn. apply lor_7_high_bits, Hn.
  - intros Hno. rewrite E. cbn zeta.
    destruct (hprt0 hcd) eqn:Hport; try (split; reflexivity).
    destruct (urb_dev_speed urb) eqn:Hdev; cbn; try (split; reflexivity);
      exfalso; apply Hno; split; auto.
Qed.


(** *** Queueing a transfer descriptor *)

(** C6 (allocation failure in [dwc_otg_hcd_qtd_add]): for a URB whose
    endpoint has no QH yet, when the allocation of the QH fails the
    function leaves through [goto done] with [retval] still 0: nothing is
    linked, the memory is as it was, and the value returned is 0, the value
    of success, not an error code. *)
Theorem qtd_add_alloc_failure_returns_0 qtd q st :
  st_hcpriv st !! urb_ep (qtd_urb q) = None ->
  dwc_otg_hcd_qtd_add None qtd q st = Some (0, st).
Proof.
  intros Hnull. unfold dwc_otg_hcd_qtd_add. rewrite Hnull. reflexivity.
Qed.

(** *** Further properties of admission and removal *)

(** Admitting a QH twice: the second call finds it scheduled and is the
    identity. *)
Theorem qh_add_twice hcd p qh :
  fst (dwc_otg_hcd_qh_add hcd p qh) = 0 ->
  dwc_otg_hcd_qh_add (snd (dwc_otg_hcd_qh_add hcd p qh)) p qh
  = (0, snd (dwc_otg_hcd_qh_add hcd p qh)).
Proof.
  intros Hok. apply qh_add_scheduled, qh_add_in_schedule, Hok.
Qed.

Lemma qh_remove_not_in_schedule hcd p qh :
  ~ in_schedule (dwc_otg_hcd_qh_remove hcd p qh) p.
Proof.
  unfold dwc_otg_hcd_qh_remove.
  destruct (qh_list_entry_empty hcd p) eqn:E.
  - apply qh_list_entry_empty_true, E.
  - destruct (dwc_qh_is_non_per qh).
    + apply list_del_init_not_in_schedule.
    + rewrite deschedule_periodic_eq. intros [b Hb].
      destruct b; cbn in Hb; exact (not_elem_of_list_del _ _ Hb).
Qed.

(** Removal takes the QH off the schedules, and removing a QH that is on
    no schedule changes nothing. *)
Theorem qh_remove_idempotent hcd p qh :
  ~ in_schedule (dwc_otg_hcd_qh_remove hcd p qh) p
  /\ dwc_otg_hcd_qh_remove (dwc_otg_hcd_qh_remove hcd p qh) p qh
     = dwc_otg_hcd_qh_remove hcd p qh.
Proof.
  pose proof (qh_remove_not_in_schedule hcd p qh) as Hgone.
  split; [exact Hgone|].
  apply qh_list_entry_empty_true in Hgone.
  unfold dwc_otg_hcd_qh_remove at 1. rewrite Hgone. reflexivity.
Qed.

(** *** Where a deactivated periodic QH goes *)

(** A periodic QH that still has QTDs moves to the head of the ready
    schedule when its new [sched_frame] is the current frame number, and
    to the head of the inactive schedule otherwise; the counters stay. *)
Theorem deactivate_periodic_placement hcd p qh snps :
  dwc_qh_is_non_per qh = false ->
  qtd_list qh <> [] ->
  let frame_number := to_uint16 (dwc_otg_hcd_get_frame_number hcd) in
  let r := dwc_otg_hcd_qh_deactivate hcd p qh snps in
  (sched_frame (snd r) = frame_number ->
     periodic_sched_ready (fst r) = p :: list_del p (periodic_sched_ready hcd)
     /\ periodic_sched_inactive (fst r) = list_del p (periodic_sched_inactive hcd))
  /\ (sched_frame (snd r) <> frame_number ->
     periodic_sched_inactive (fst r) = p :: list_del p (periodic_sched_inactive hcd)
     /\ periodic_sched_ready (fst r) = list_del p (periodic_sched_ready hcd))
  /\ periodic_channels (fst r) = periodic_channels hcd
  /\ periodic_usecs (fst r) = periodic_usecs hcd.
Proof.
  intros Hper Hq frame_number r. subst r.
  unfold dwc_otg_hcd_qh_deactivate. rewrite Hper. fold frame_number.
  set (qh' := next_sched_frame frame_number qh snps).
  destruct (next_sched_frame_fields frame_number qh snps) as (_ & _ & _ & _ & _ & Hl).
  fold qh' in Hl.
  rewrite bool_decide_eq_false_2 by congruence.
  destruct (Z.eqb_spec (sched_frame qh') frame_number) as [E | E]; cbn [fst snd].
  - split; [intros _; split; reflexivity|].
    split; [intros Hne; contradiction|]. split; reflexivity.
  - split; [intros He; contradiction|].
    split; [intros _; split; reflexivity|]. split; reflexivity.
Qed.

(** The branch of a split QH that starts a new split sequence
    ([sched_next_periodic_split] clear), in the driver's frame helpers. *)
Lemma deactivate_split_restart hcd p qh :
  dwc_qh_is_non_per qh = false ->
  do_split qh <> 0 ->
  let frame_number := to_uint16 (dwc_otg_hcd_get_frame_number hcd) in
  let qh' := snd (dwc_otg_hcd_qh_deactivate hcd p qh 0) in
  let next := dwc_frame_num_inc (start_split_frame qh) (interval qh) in
  sched_frame qh'
  = Z.lor (if dwc_frame_num_le next frame_number then frame_number else next) 7
  /\ start_split_frame qh' = sched_frame qh'.
Proof.
  intros Hper Hsplit frame_number qh' next. subst qh'.
  rewrite (deactivate_periodic_qh hcd p qh 0 Hper). fold frame_number.
  unfold next_sched_frame. rewrite (truthy_true _ Hsplit), truthy_0.
  cbn [set_sched_frame set_start_split_frame start_split_frame sched_frame interval].
  fold next. destruct (dwc_frame_num_le next frame_number); cbn; split; reflexivity.
Qed.

(** *** Split detection *)

(** [do_split] is set exactly for a low or full speed device behind a
    transaction translator whose hub is not at address 1. *)
Theorem qh_init_do_split hcd urb :
  do_split (dwc_otg_hcd_qh_init hcd urb) <> 0 <->
  (urb_dev_speed urb = USB_SPEED_LOW \/ urb_dev_speed urb = USB_SPEED_FULL)
  /\ exists devnum, urb_dev_tt_hub_devnum urb = Some devnum /\ devnum <> 1.
Proof.
  assert (E : do_split (dwc_otg_hcd_qh_init hcd urb) =
              if is_low_or_full (urb_dev_speed urb)
                 && match urb_dev_tt_hub_devnum urb with
                    | Some devnum => negb (devnum =? 1)
                    | None => false
                    end
              then 1 else 0).
  { unfold dwc_otg_hcd_qh_init.
    destruct (urb_pipetype urb); cbn; try reflexivity;
      destruct (hprt0 hcd); try reflexivity;
      destruct (is_low_or_full (urb_dev_speed urb)); reflexivity. }
  rewrite E. clear E.
  destruct (urb_dev_speed urb), (urb_dev_tt_hub_devnum urb) as [d|]; cbn;
    try (split; [intros H; exfalso; apply H; reflexivity
                | intros [[H | H] _]; discriminate H]);
    try (split; [intros H; exfalso; apply H; reflexivity
                | intros [_ (d' & H & _)]; discriminate H]).
  all: destruct (Z.eqb_spec d 1) as [-> | Hd]; cbn; split.
  all: try (intros H; exfalso; apply H; reflexivity).
  all: try (intros [_ (d' & H & Hd')]; inversion H; subst; contradiction).
  all: try (intros _; split; [auto | exists d; auto]).
  all: try discriminate.
Qed.

(** *** Exclusivity of the schedules *)

Lemma in_schedule_entries hcd p : in_schedule hcd p <-> p ∈ sched_entries hcd.
Proof.
  unfold in_schedule, sched_entries. rewrite !elem_of_app. split.
  - intros [b Hb]. destruct b; cbn in Hb; clear_helpers; tauto.
  - intros [H | [H | [H | [H | H]]]].
    + exists NON_PERIODIC_SCHED_INACTIVE. exact H.
    + exists NON_PERIODIC_SCHED_ACTIVE. exact H.
    + exists PERIODIC_SCHED_INACTIVE. exact H.
    + exists PERIODIC_SCHED_READY. exact H.
    + exists PERIODIC_SCHED_QUEUED. exact H.
Qed.

Lemma sched_entries_list_del_init p hcd :
  sched_entries (list_del_init p hcd) = list_del p (sched_entries hcd).
Proof.
  unfold sched_entries, list_del_init, list_del. cbn.
  rewrite !filter_app. reflexivity.
Qed.

Lemma sched_wf_list_del_init p hcd : sched_wf hcd -> sched_wf (list_del_init p hcd).
Proof.
  unfold sched_wf. rewrite sched_entries_list_del_init. apply NoDup_filter.
Qed.

Lemma not_elem_of_entries_list_del_init p hcd :
  p ∉ sched_entries (list_del_init p hcd).
Proof.
  rewrite sched_entries_list_del_init. apply not_elem_of_list_del.
Qed.

(** Linking an entry that is on no schedule keeps the schedules
    duplicate-free, wherever it is linked. *)
Lemma sched_wf_link hcd hcd' p :
  sched_wf hcd -> p ∉ sched_entries hcd ->
  sched_entries hcd' ≡ₚ p :: sched_entries hcd ->
  sched_wf hcd'.
Proof.
  unfold sched_wf. intros Hwf Hout Hperm. rewrite Hperm.
  apply NoDup_cons. split; assumption.
Qed.

Lemma sched_wf_qh_add hcd p qh :
  sched_wf hcd -> sched_wf (snd (dwc_otg_hcd_qh_add hcd p qh)).
Proof.
  intros Hwf. unfold dwc_otg_hcd_qh_add.
  destruct (qh_list_entry_empty hcd p) eqn:E; cbn; [|exact Hwf].
  apply qh_list_entry_empty_true in E. rewrite in_schedule_entries in E.
  destruct (dwc_qh_is_non_per qh); cbn.
  - apply (sched_wf_link hcd _ p Hwf E).
    unfold sched_entries, list_add_tail. cbn. clear. solve_Permutation.
  - destruct (schedule_periodic_cases hcd p qh) as [H | H]; rewrite H; cbn;
      [|exact Hwf].
    apply (sched_wf_link hcd _ p Hwf E).
    unfold sched_entries, scheduled, list_add_tail. cbn. clear. solve_Permutation.
Qed.

Lemma sched_wf_qh_remove hcd p qh :
  sched_wf hcd -> sched_wf (dwc_otg_hcd_qh_remove hcd p qh).
Proof.
  intros Hwf. unfold dwc_otg_hcd_qh_remove.
  destruct (qh_list_entry_empty hcd p); [exact Hwf|].
  destruct (dwc_qh_is_non_per qh).
  - destruct (list_head_ptr_eqb _ _);
      exact (sched_wf_list_del_init p _ Hwf).
  - exact (sched_wf_list_del_init p _ Hwf).
Qed.

Lemma sched_wf_list_move hcd p :
  sched_wf hcd ->
  sched_wf (list_move_periodic_sched_ready p hcd)
  /\ sched_wf (list_move_periodic_sched_inactive p hcd).
Proof.
  intros Hwf. split.
  - apply (sched_wf_link (list_del_init p hcd) _ p).
    + apply sched_wf_list_del_init, Hwf.
    + apply not_elem_of_entries_list_del_init.
    + unfold sched_entries, list_add. cbn. clear. solve_Permutation.
  - apply (sched_wf_link (list_del_init p hcd) _ p).
    + apply sched_wf_list_del_init, Hwf.
    + apply not_elem_of_entries_list_del_init.
    + unfold sched_entries, list_add. cbn. clear. solve_Permutation.
Qed.

(** P1 (bucket exclusivity): admission, removal and deactivation keep the
    schedules free of duplicates, and on such schedules a QH is on at most
    one of the five lists. *)
Theorem sched_wf_preserved hcd p qh snps :
  sched_wf hcd ->
  sched_wf (snd (dwc_otg_hcd_qh_add hcd p qh))
  /\ sched_wf (dwc_otg_hcd_qh_remove hcd p qh)
  /\ sched_wf (fst (dwc_otg_hcd_qh_deactivate hcd p qh snps))
  /\ (forall b1 b2, p ∈ sched_list_of hcd b1 -> p ∈ sched_list_of hcd b2 -> b1 = b2).
Proof.
  intros Hwf.
  split; [apply sched_wf_qh_add, Hwf|].
  split; [apply sched_wf_qh_remove, Hwf|].
  split.
  - unfold dwc_otg_hcd_qh_deactivate.
    destruct (dwc_qh_is_non_per qh).
    + destruct (negb _); cbn.
      * apply sched_wf_qh_add, sched_wf_qh_remove, Hwf.
      * apply sched_wf_qh_remove, Hwf.
    + destruct (bool_decide _); cbn; [apply sched_wf_qh_remove, Hwf|].
      destruct (_ =? _); cbn; apply sched_wf_list_move, Hwf.
  - unfold sched_wf, sched_entries in Hwf.
    rewrite !NoDup_app in Hwf. setoid_rewrite elem_of_app in Hwf.
    destruct Hwf as (_ & D1 & _ & D2 & _ & D3 & _ & D4 & _).
    intros b1 b2 H1 H2.
    specialize (D1 p). specialize (D2 p). specialize (D3 p). specialize (D4 p).
    repeat rewrite elem_of_app in D1. repeat rewrite elem_of_app in D2.
    destruct b1, b2; cbn in H1, H2; try reflexivity; exfalso;
      clear_helpers; tauto.
Qed.

(** *** What admission, removal and deactivation leave alone *)

Lemma list_del_cons_eq p l : list_del p (p :: l) = list_del p l.
Proof. unfold list_del. apply filter_cons_False. clear_helpers; tauto. Qed.

Lemma list_del_idemp p l : list_del p (list_del p l) = list_del p l.
Proof. apply list_del_not_elem_of, not_elem_of_list_del. Qed.

Lemma list_del_snoc_eq p l : list_del p (list_add_tail p l) = list_del p l.
Proof.
  unfold list_del, list_add_tail. rewrite filter_app.
  rewrite (filter_cons_False _ p []) by (clear_helpers; tauto).
  rewrite filter_nil. apply app_nil_r.
Qed.

Lemma others_kept_refl p hcd : others_kept p hcd hcd.
Proof. intros b. reflexivity. Qed.

Lemma others_kept_trans p hcd1 hcd2 hcd3 :
  others_kept p hcd1 hcd2 -> others_kept p hcd2 hcd3 -> others_kept p hcd1 hcd3.
Proof. intros H12 H23 b. rewrite H23. apply H12. Qed.

Lemma others_kept_list_del_init p hcd : others_kept p hcd (list_del_init p hcd).
Proof. intros b. destruct b; cbn; apply list_del_idemp. Qed.

Lemma others_kept_qh_add p hcd qh :
  others_kept p hcd (snd (dwc_otg_hcd_qh_add hcd p qh)).
Proof.
  unfold dwc_otg_hcd_qh_add.
  destruct (qh_list_entry_empty hcd p); cbn; [|apply others_kept_refl].
  destruct (dwc_qh_is_non_per qh); cbn.
  - intros b. destruct b; cbn; try reflexivity. apply list_del_snoc_eq.
  - destruct (schedule_periodic_cases hcd p qh) as [H | H]; rewrite H; cbn;
      [|apply others_kept_refl].
    intros b. destruct b; cbn; try reflexivity. apply list_del_snoc_eq.
Qed.

Lemma others_kept_qh_remove p hcd qh :
  others_kept p hcd (dwc_otg_hcd_qh_remove hcd p qh).
Proof.
  unfold dwc_otg_hcd_qh_remove.
  destruct (qh_list_entry_empty hcd p); [apply others_kept_refl|].
  destruct (dwc_qh_is_non_per qh).
  - destruct (list_head_ptr_eqb _ _);
      intros b; destruct b; cbn; apply list_del_idemp.
  - rewrite deschedule_periodic_eq.
    intros b; destruct b; cbn; apply list_del_idemp.
Qed.

Lemma others_kept_qh_deactivate p hcd qh snps :
  others_kept p hcd (fst (dwc_otg_hcd_qh_deactivate hcd p qh snps)).
Proof.
  unfold dwc_otg_hcd_qh_deactivate.
  destruct (dwc_qh_is_non_per qh).
  - destruct (negb _); cbn; [|apply others_kept_qh_remove].
    eapply others_kept_trans;
      [apply others_kept_qh_remove | apply others_kept_qh_add].
  - destruct (bool_decide _); cbn; [apply others_kept_qh_remove|].
    destruct (_ =? _); cbn -[list_del]; intros b; destruct b; cbn -[list_del];
      unfold list_add; rewrite ?list_del_cons_eq; apply list_del_idemp.
Qed.

Lemma others_kept_elem_of p q hcd hcd' b :
  others_kept p hcd hcd' -> q <> p ->
  q ∈ sched_list_of hcd' b <-> q ∈ sched_list_of hcd b.
Proof.
  intros H Hq.
  rewrite <- (elem_of_list_del_ne p q (sched_list_of hcd' b) Hq).
  rewrite <- (elem_of_list_del_ne p q (sched_list_of hcd b) Hq).
  rewrite (H b). reflexivity.
Qed.

Lemma others_kept_in_schedule p q hcd hcd' :
  others_kept p hcd hcd' -> q <> p -> in_schedule hcd q <-> in_schedule hcd' q.
Proof.
  intros H Hq. unfold in_schedule.
  split; intros [b Hb]; exists b;
    apply (others_kept_elem_of p q hcd hcd' b H Hq); exact Hb.
Qed.

(** Admitting, removing or deactivating the QH at [p] leaves every other
    QH on its schedule, at its place among the others. *)
Theorem schedules_of_others_kept hcd p qh snps :
  others_kept p hcd (snd (dwc_otg_hcd_qh_add hcd p qh))
  /\ others_kept p hcd (dwc_otg_hcd_qh_remove hcd p qh)
  /\ others_kept p hcd (fst (dwc_otg_hcd_qh_deactivate hcd p qh snps))
  /\ (forall q b, q <> p ->
        (q ∈ sched_list_of (snd (dwc_otg_hcd_qh_add hcd p qh)) b
         <-> q ∈ sched_list_of hcd b)
        /\ (q ∈ sched_list_of (dwc_otg_hcd_qh_remove hcd p qh) b
            <-> q ∈ sched_list_of hcd b)
        /\ (q ∈ sched_list_of (fst (dwc_otg_hcd_qh_deactivate hcd p qh snps)) b
            <-> q ∈ sched_list_of hcd b)).
Proof.
  pose proof (others_kept_qh_add p hcd qh) as Ha.
  pose proof (others_kept_qh_remove p hcd qh) as Hr.
  pose proof (others_kept_qh_deactivate p hcd qh snps) as Hd.
  repeat split; try assumption;
    try (apply (others_kept_elem_of p q hcd _ b); assumption).
Qed.

Lemma qh_add_cases hcd p qh :
  fst (dwc_otg_hcd_qh_add hcd p qh) = 0
  \/ dwc_otg_hcd_qh_add hcd p qh = (- ENOSPC, hcd)
     /\ ~ in_schedule hcd p /\ dwc_qh_is_non_per qh = false.
Proof.
  unfold dwc_otg_hcd_qh_add.
  destruct (qh_list_entry_empty hcd p) eqn:E; cbn; [|left; reflexivity].
  apply qh_list_entry_empty_true in E.
  destruct (dwc_qh_is_non_per qh); cbn; [left; reflexivity|].
  destruct (schedule_periodic_cases hcd p qh) as [H | H]; rewrite H; cbn; auto.
Qed.

(** The contract of [dwc_otg_hcd_qh_add]: it returns 0 or [-ENOSPC]; after
    0 the QH is on a schedule; [-ENOSPC] is only returned for a periodic QH
    that was on no schedule, and then the HCD is unchanged. *)
Theorem qh_add_contract hcd p qh :
  let r := dwc_otg_hcd_qh_add hcd p qh in
  (fst r = 0 \/ fst r = - ENOSPC)
  /\ (fst r = 0 -> in_schedule (snd r) p)
  /\ (fst r <> 0 ->
        snd r = hcd /\ ~ in_schedule hcd p /\ dwc_qh_is_non_per qh = false).
Proof.
  cbn zeta.
  destruct (qh_add_cases hcd p qh) as [H0 | (E & Hout & Hper)].
  - split; [left; exact H0|].
    split; [apply qh_add_in_schedule|]. intros Hne. contradiction.
  - rewrite E. cbn.
    split; [right; reflexivity|].
    split; [discriminate|]. intros _. auto.
Qed.

(** *** The limits of the controller *)

Lemma periodic_budget_with_sched hcd npi npa cur pi pr pq pu pc b :
  periodic_budget (with_sched hcd npi npa cur pi pr pq pu pc b) = periodic_budget hcd.
Proof. reflexivity. Qed.

Lemma within_limits_qh_add hcd p qh :
  0 <= usecs qh <= periodic_budget hcd ->
  within_limits hcd ->
  within_limits (snd (dwc_otg_hcd_qh_add hcd p qh)).
Proof.
  intros Hu [Hc Hb]. unfold dwc_otg_hcd_qh_add.
  destruct (qh_list_entry_empty hcd p); cbn; [|split; assumption].
  destruct (dwc_qh_is_non_per qh); cbn; [split; assumption|].
  unfold schedule_periodic.
  destruct (periodic_channel_available_cases hcd) as [H1 | H1]; rewrite H1;
    cbn; [|split; assumption].
  destruct (check_periodic_bandwidth_cases hcd qh) as [H2 | H2]; rewrite H2;
    cbn; [|split; assumption].
  destruct (check_max_xfer_size_cases hcd qh) as [H3 | H3]; rewrite H3;
    cbn; [|split; assumption].
  apply periodic_channel_available_0 in H1.
  apply check_periodic_bandwidth_0 in H2.
  rewrite max_claimed_usecs_eq, to_uint16_small in H2
    by (unfold periodic_budget in *; destruct (speed (core_params hcd)); lia).
  split; cbn; unfold periodic_budget in *; cbn; lia.
Qed.

Lemma within_limits_qh_remove hcd p qh :
  0 <= usecs qh ->
  within_limits hcd ->
  within_limits (dwc_otg_hcd_qh_remove hcd p qh).
Proof.
  intros Hu [Hc Hb]. unfold dwc_otg_hcd_qh_remove.
  destruct (qh_list_entry_empty hcd p); [split; assumption|].
  destruct (dwc_qh_is_non_per qh).
  - destruct (list_head_ptr_eqb _ _); split; assumption.
  - rewrite deschedule_periodic_eq.
    split; cbn; unfold periodic_budget in *; cbn; lia.
Qed.

(** The periodic reservations never exceed the limits: when every QH
    handled needs no more than the budget of a (micro)frame, admission,
    removal and deactivation keep [periodic_channels] at most
    [host_channels - 1] and [periodic_usecs] at most the budget. *)
Theorem within_limits_preserved hcd p qh snps :
  0 <= usecs qh <= periodic_budget hcd ->
  within_limits hcd ->
  within_limits (snd (dwc_otg_hcd_qh_add hcd p qh))
  /\ within_limits (dwc_otg_hcd_qh_remove hcd p qh)
  /\ within_limits (fst (dwc_otg_hcd_qh_deactivate hcd p qh snps)).
Proof.
  intros Hu Hl.
  split; [apply within_limits_qh_add; assumption|].
  split; [apply within_limits_qh_remove; [lia | assumption]|].
  unfold dwc_otg_hcd_qh_deactivate.
  destruct (dwc_qh_is_non_per qh).
  - pose proof (within_limits_qh_remove hcd p qh ltac:(lia) Hl) as Hr.
    destruct (negb _); cbn; [|exact Hr].
    apply within_limits_qh_add; [|exact Hr].
    replace (periodic_budget (dwc_otg_hcd_qh_remove hcd p qh))
      with (periodic_budget hcd); [exact Hu|].
    unfold dwc_otg_hcd_qh_remove.
    destruct (qh_list_entry_empty hcd p); [reflexivity|].
    destruct (dwc_qh_is_non_per qh); [|reflexivity].
    destruct (list_head_ptr_eqb _ _); reflexivity.
  - set (qh' := next_sched_frame _ qh snps).
    destruct (next_sched_frame_fields
                (to_uint16 (dwc_otg_hcd_get_frame_number hcd)) qh snps)
      as (_ & _ & _ & Hus & _ & _).
    fold qh' in Hus.
    destruct (bool_decide _); cbn.
    + apply within_limits_qh_remove; [rewrite Hus; lia | assumption].
    + destruct Hl as [Hc Hb]. destruct (_ =? _); cbn; split; assumption.
Qed.

(** *** The cursor of the non-periodic schedule *)

Lemma next_on_elem_of p q l :
  NoDup l -> next_on p l = Some (Some q) -> q ∈ l /\ q <> p.
Proof.
  induction l as [|x l IH]; cbn; [discriminate|].
  intros Hnd Hnext. apply NoDup_cons in Hnd as [Hx Hnd].
  destruct (bool_decide (x = p)) eqn:E.
  - apply bool_decide_eq_true in E. subst x.
    destruct l as [|y l]; cbn in Hnext; [discriminate|].
    inversion Hnext; subst y.
    split; [right; left|].
    intros ->. apply Hx. left.
  - destruct (IH Hnd Hnext) as [Hin Hne]. split; [right; exact Hin | exact Hne].
Qed.

Lemma next_on_None p l : next_on p l = None -> p ∉ l.
Proof.
  induction l as [|x l IH]; cbn; [intros _; apply not_elem_of_nil|].
  destruct (bool_decide (x = p)) eqn:E; [discriminate|].
  apply bool_decide_eq_false in E.
  intros H. apply not_elem_of_cons. split; [congruence | exact (IH H)].
Qed.

Lemma sched_wf_NoDup hcd b : sched_wf hcd -> NoDup (sched_list_of hcd b).
Proof.
  unfold sched_wf, sched_entries. rewrite !NoDup_app.
  intros (H1 & _ & H2 & _ & H3 & _ & H4 & _ & H5).
  destruct b; assumption.
Qed.

Lemma entry_next_from_linked hcd p bs :
  sched_wf hcd ->
  (exists b, b ∈ bs /\ p ∈ sched_list_of hcd b) ->
  (exists b, entry_next_from hcd p bs = SCHED_HEAD b)
  \/ (exists q b, entry_next_from hcd p bs = QH_LIST_ENTRY q
                  /\ q ∈ sched_list_of hcd b /\ q <> p).
Proof.
  intros Hwf. induction bs as [|b0 bs IH]; intros (b & Hb & Hin).
  - apply elem_of_nil in Hb. contradiction.
  - cbn. destruct (next_on p (sched_list_of hcd b0)) as [[q|]|] eqn:E.
    + right. exists q, b0.
      destruct (next_on_elem_of p q _ (sched_wf_NoDup hcd b0 Hwf) E).
      auto.
    + left. exists b0. reflexivity.
    + apply next_on_None in E. apply IH.
      apply elem_of_cons in Hb as [-> | Hb]; [contradiction|].
      exists b. auto.
Qed.

Lemma elem_of_all_sched_lists b : b ∈ all_sched_lists.
Proof. destruct b; unfold all_sched_lists; repeat constructor. Qed.

Lemma list_head_ptr_eqb_eq a b : list_head_ptr_eqb a b = true <-> a = b.
Proof.
  destruct a as [p|x], b as [q|y]; cbn.
  - rewrite bool_decide_eq_true. split; congruence.
  - split; discriminate.
  - split; discriminate.
  - destruct x, y; split; intros H; try reflexivity; discriminate H.
Qed.

Lemma non_periodic_qh_ptr_list_del_init p hcd :
  non_periodic_qh_ptr (list_del_init p hcd) = non_periodic_qh_ptr hcd.
Proof. reflexivity. Qed.

Lemma non_periodic_qh_ptr_qh_add hcd p qh :
  non_periodic_qh_ptr (snd (dwc_otg_hcd_qh_add hcd p qh)) = non_periodic_qh_ptr hcd.
Proof.
  unfold dwc_otg_hcd_qh_add.
  destruct (qh_list_entry_empty hcd p); cbn; [|reflexivity].
  destruct (dwc_qh_is_non_per qh); cbn; [reflexivity|].
  destruct (schedule_periodic_cases hcd p qh) as [H | H]; rewrite H; reflexivity.
Qed.

Lemma cursor_valid_qh_add hcd p qh :
  cursor_valid hcd -> cursor_valid (snd (dwc_otg_hcd_qh_add hcd p qh)).
Proof.
  unfold cursor_valid. rewrite non_periodic_qh_ptr_qh_add.
  destruct (non_periodic_qh_ptr hcd) as [q|]; [|trivial].
  intros Hq. destruct (decide (q = p)) as [-> | Hne].
  - unfold dwc_otg_hcd_qh_add.
    apply qh_list_entry_empty_false in Hq. rewrite Hq. cbn.
    apply qh_list_entry_empty_false, Hq.
  - apply (others_kept_in_schedule p q hcd _ (others_kept_qh_add p hcd qh) Hne).
    exact Hq.
Qed.

Lemma cursor_valid_qh_remove hcd p qh :
  sched_wf hcd ->
  dwc_qh_is_non_per qh = true \/ non_periodic_qh_ptr hcd <> QH_LIST_ENTRY p ->
  cursor_valid hcd -> cursor_valid (dwc_otg_hcd_qh_remove hcd p qh).
Proof.
  intros Hwf Hcase Hvalid.
  pose proof (others_kept_qh_remove p hcd qh) as Hkept.
  unfold dwc_otg_hcd_qh_remove in *.
  destruct (qh_list_entry_empty hcd p) eqn:E; [exact Hvalid|].
  apply qh_list_entry_empty_false in E.
  assert (Hother : forall q, q <> p -> in_schedule hcd q ->
                     non_periodic_qh_ptr hcd = QH_LIST_ENTRY q ->
                     forall hcd', others_kept p hcd hcd' ->
                       non_periodic_qh_ptr hcd' = QH_LIST_ENTRY q ->
                       cursor_valid hcd').
  { intros q Hne Hq _ hcd' Hk Hc. unfold cursor_valid. rewrite Hc.
    apply (others_kept_in_schedule p q hcd hcd' Hk Hne), Hq. }
  destruct (dwc_qh_is_non_per qh).
  - destruct (list_head_ptr_eqb (non_periodic_qh_ptr hcd) (QH_LIST_ENTRY p)) eqn:Ec.
    + apply list_head_ptr_eqb_eq in Ec.
      unfold cursor_valid.
      change (non_periodic_qh_ptr
                (list_del_init p
                   (set_non_periodic_qh_ptr
                      (list_head_next hcd (non_periodic_qh_ptr hcd)) hcd)))
        with (list_head_next hcd (non_periodic_qh_ptr hcd)).
      rewrite Ec. unfold list_head_next.
      destruct (entry_next_from_linked hcd p all_sched_lists Hwf)
        as [[b Hb] | (q & b & Hq & Hin & Hne)].
      { destruct E as [b Hb]. exists b. split; [|exact Hb].
        apply elem_of_all_sched_lists. }
      * rewrite Hb. trivial.
      * rewrite Hq. exists b.
        destruct b; cbn -[list_del]; apply elem_of_list_del_ne; assumption.
    + unfold cursor_valid in *. cbn.
      destruct (non_periodic_qh_ptr hcd) as [q|] eqn:Eq; [|trivial].
      assert (Hne : q <> p).
      { intros ->. cbn in Ec. rewrite bool_decide_eq_true_2 in Ec by reflexivity.
        discriminate Ec. }
      apply (others_kept_in_schedule p q hcd _ Hkept Hne), Hvalid.
  - destruct Hcase as [Hc | Hc]; [discriminate Hc|].
    unfold cursor_valid in *. rewrite deschedule_periodic_eq in *. cbn.
    destruct (non_periodic_qh_ptr hcd) as [q|] eqn:Eq; [|trivial].
    assert (Hne : q <> p) by congruence.
    apply (others_kept_in_schedule p q hcd _ Hkept Hne), Hvalid.
Qed.

Lemma next_on_at p l1 l2 :
  p ∉ l1 -> next_on p (l1 ++ p :: l2) = Some (head l2).
Proof.
  induction l1 as [|x l1 IH]; cbn; intros Hp.
  - rewrite bool_decide_eq_true_2 by reflexivity. reflexivity.
  - apply not_elem_of_cons in Hp as [Hne Hp].
    rewrite bool_decide_eq_false_2 by congruence. apply IH, Hp.
Qed.

Lemma next_on_not_elem_of p l : p ∉ l -> next_on p l = None.
Proof.
  induction l as [|x l IH]; cbn; intros Hp; [reflexivity|].
  apply not_elem_of_cons in Hp as [Hne Hp].
  rewrite bool_decide_eq_false_2 by congruence. apply IH, Hp.
Qed.

Lemma sched_wf_exclusive hcd p b1 b2 :
  sched_wf hcd ->
  p ∈ sched_list_of hcd b1 -> p ∈ sched_list_of hcd b2 -> b1 = b2.
Proof.
  intros Hwf. unfold sched_wf, sched_entries in Hwf.
  rewrite !NoDup_app in Hwf. setoid_rewrite elem_of_app in Hwf.
  destruct Hwf as (_ & D1 & _ & D2 & _ & D3 & _ & D4 & _).
  intros H1 H2.
  specialize (D1 p). specialize (D2 p). specialize (D3 p). specialize (D4 p).
  repeat rewrite elem_of_app in D1. repeat rewrite elem_of_app in D2.
  destruct b1, b2; cbn in H1, H2; try reflexivity; exfalso;
    clear_helpers; tauto.
Qed.

(** [entry->next] of a linked entry: the entry of the QH linked behind it,
    or the head of its schedule when it is the last one. *)
Lemma entry_next_from_at hcd p b l1 l2 bs :
  sched_wf hcd ->
  b ∈ bs ->
  sched_list_of hcd b = l1 ++ p :: l2 ->
  entry_next_from hcd p bs
  = match l2 with
    | [] => SCHED_HEAD b
    | q :: _ => QH_LIST_ENTRY q
    end.
Proof.
  intros Hwf Hb Hl.
  assert (Hin : p ∈ sched_list_of hcd b).
  { rewrite Hl. apply elem_of_app. right. apply list_elem_of_here. }
  assert (Hl1 : p ∉ l1).
  { pose proof (sched_wf_NoDup hcd b Hwf) as Hnd. rewrite Hl in Hnd.
    apply NoDup_app in Hnd as (_ & Hd & _).
    intros H1. apply (Hd p H1). apply list_elem_of_here. }
  induction bs as [|b0 bs IH]; [apply elem_of_nil in Hb; contradiction|].
  cbn. destruct (decide (p ∈ sched_list_of hcd b0)) as [H0 | H0].
  - assert (b0 = b) as -> by exact (sched_wf_exclusive hcd p b0 b Hwf H0 Hin).
    rewrite Hl, (next_on_at p l1 l2 Hl1). destruct l2; reflexivity.
  - rewrite (next_on_not_elem_of p _ H0). apply IH.
    apply elem_of_cons in Hb as [-> | Hb]; [contradiction | exact Hb].
Qed.

(** Where [dwc_otg_hcd_qh_remove] leaves the cursor. *)
Lemma qh_remove_cursor hcd p qh :
  non_periodic_qh_ptr (dwc_otg_hcd_qh_remove hcd p qh)
  = if negb (qh_list_entry_empty hcd p) && dwc_qh_is_non_per qh
       && list_head_ptr_eqb (non_periodic_qh_ptr hcd) (QH_LIST_ENTRY p)
    then list_head_next hcd (non_periodic_qh_ptr hcd)
    else non_periodic_qh_ptr hcd.
Proof.
  unfold dwc_otg_hcd_qh_remove.
  destruct (qh_list_entry_empty hcd p); [reflexivity|].
  destruct (dwc_qh_is_non_per qh); cbn [negb andb].
  - destruct (list_head_ptr_eqb _ _); reflexivity.
  - rewrite deschedule_periodic_eq. reflexivity.
Qed.

(** Where [dwc_otg_hcd_qh_deactivate] leaves the cursor: where the removal
    of the QH leaves it. *)
Lemma qh_deactivate_cursor hcd p qh snps :
  non_periodic_qh_ptr (fst (dwc_otg_hcd_qh_deactivate hcd p qh snps))
  = non_periodic_qh_ptr (dwc_otg_hcd_qh_remove hcd p qh).
Proof.
  unfold dwc_otg_hcd_qh_deactivate.
  destruct (dwc_qh_is_non_per qh) eqn:Hnon.
  - destruct (negb _); cbn [fst]; [|reflexivity].
    apply non_periodic_qh_ptr_qh_add.
  - set (qh' := next_sched_frame _ qh snps).
    assert (Hper : dwc_qh_is_non_per qh' = false).
    { unfold dwc_qh_is_non_per in *.
      destruct (next_sched_frame_fields
                  (to_uint16 (dwc_otg_hcd_get_frame_number hcd)) qh snps)
        as (Ht & _). fold qh' in Ht. rewrite Ht. exact Hnon. }
    rewrite !qh_remove_cursor, Hnon.
    destruct (bool_decide _); cbn [fst].
    + rewrite qh_remove_cursor, Hper, !andb_false_r. reflexivity.
    + rewrite !andb_false_r. destruct (_ =? _); reflexivity.
Qed.

(** [non_periodic_qh_ptr] stays on a linked entry or a list head.  When the
    QH it points to is removed or deactivated, it is advanced to the entry
    of the QH linked behind that one, or to the head of the schedule when
    the QH was the last on it; in every other case, and on admission, it
    is not written.  This holds for the removal and deactivation of a
    control or bulk QH, and of any QH the cursor does not point to. *)
Theorem cursor_valid_preserved hcd p qh snps :
  sched_wf hcd ->
  cursor_valid hcd ->
  dwc_qh_is_non_per qh = true \/ non_periodic_qh_ptr hcd <> QH_LIST_ENTRY p ->
  cursor_valid (snd (dwc_otg_hcd_qh_add hcd p qh))
  /\ cursor_valid (dwc_otg_hcd_qh_remove hcd p qh)
  /\ cursor_valid (fst (dwc_otg_hcd_qh_deactivate hcd p qh snps))
  /\ non_periodic_qh_ptr (dwc_otg_hcd_qh_remove hcd p qh) <> QH_LIST_ENTRY p
  /\ non_periodic_qh_ptr (snd (dwc_otg_hcd_qh_add hcd p qh))
     = non_periodic_qh_ptr hcd
  /\ non_periodic_qh_ptr (fst (dwc_otg_hcd_qh_deactivate hcd p qh snps))
     = non_periodic_qh_ptr (dwc_otg_hcd_qh_remove hcd p qh)
  /\ (non_periodic_qh_ptr hcd <> QH_LIST_ENTRY p ->
        non_periodic_qh_ptr (dwc_otg_hcd_qh_remove hcd p qh)
        = non_periodic_qh_ptr hcd)
  /\ (non_periodic_qh_ptr hcd = QH_LIST_ENTRY p ->
        forall b l1 l2, sched_list_of hcd b = l1 ++ p :: l2 ->
          non_periodic_qh_ptr (dwc_otg_hcd_qh_remove hcd p qh)
          = match l2 with
            | [] => SCHED_HEAD b
            | q :: _ => QH_LIST_ENTRY q
            end).
Proof.
  intros Hwf Hvalid Hcase.
  pose proof (cursor_valid_qh_remove hcd p qh Hwf Hcase Hvalid) as Hr.
  split; [apply cursor_valid_qh_add, Hvalid|].
  split; [exact Hr|].
  split.
  { unfold cursor_valid. rewrite qh_deactivate_cursor.
    destruct (non_periodic_qh_ptr (dwc_otg_hcd_qh_remove hcd p qh))
      as [q|] eqn:Eq; [|trivial].
    assert (Hne : q <> p).
    { intros ->. unfold cursor_valid in Hr. rewrite Eq in Hr.
      exact (qh_remove_not_in_schedule hcd p qh Hr). }
    unfold cursor_valid in Hr. rewrite Eq in Hr.
    apply (others_kept_in_schedule p q hcd _
             (others_kept_qh_deactivate p hcd qh snps) Hne).
    apply (others_kept_in_schedule p q hcd _
             (others_kept_qh_remove p hcd qh) Hne) in Hr.
    exact Hr. }
  split.
  { intros Hc. unfold cursor_valid in Hr. rewrite Hc in Hr.
    exact (qh_remove_not_in_schedule hcd p qh Hr). }
  split; [apply non_periodic_qh_ptr_qh_add|].
  split; [apply qh_deactivate_cursor|].
  split.
  - intros Hne. rewrite qh_remove_cursor.
    destruct (list_head_ptr_eqb _ _) eqn:Ec;
      [|rewrite andb_false_r; reflexivity].
    apply list_head_ptr_eqb_eq in Ec. contradiction.
  - intros Hc b l1 l2 Hl.
    destruct Hcase as [Hnon | Hne]; [|contradiction].
    assert (Hin : in_schedule hcd p).
    { exists b. rewrite Hl. apply elem_of_app. right. apply list_elem_of_here. }
    apply qh_list_entry_empty_false in Hin.
    rewrite qh_remove_cursor, Hin, Hnon, Hc. cbn [negb andb list_head_ptr_eqb].
    rewrite bool_decide_eq_true_2 by reflexivity.
    unfold list_head_next.
    apply (entry_next_from_at hcd p b l1 l2 all_sched_lists Hwf
             (elem_of_all_sched_lists b) Hl).
Qed.

(** *** Deactivating a control or bulk QH *)

(** A control or bulk QH that still has QTDs goes to the tail of the
    inactive non-periodic schedule, from wherever it was; one whose QTD
    list is empty leaves the schedules.  The QH itself and the periodic
    counters are not touched. *)
Theorem deactivate_non_periodic hcd p qh snps :
  dwc_qh_is_non_per qh = true ->
  let r := dwc_otg_hcd_qh_deactivate hcd p qh snps in
  snd r = qh
  /\ periodic_channels (fst r) = periodic_channels hcd
  /\ periodic_usecs (fst r) = periodic_usecs hcd
  /\ bus (fst r) = bus hcd
  /\ (qtd_list qh <> [] ->
        non_periodic_sched_inactive (fst r)
        = list_del p (non_periodic_sched_inactive hcd) ++ [p]
        /\ forall b, b <> NON_PERIODIC_SCHED_INACTIVE ->
             sched_list_of (fst r) b = list_del p (sched_list_of hcd b))
  /\ (qtd_list qh = [] ->
        forall b, sched_list_of (fst r) b = list_del p (sched_list_of hcd b)).
Proof.
  intros Hnon. cbn zeta. unfold dwc_otg_hcd_qh_deactivate. rewrite Hnon.
  (* what the removal leaves *)
  assert (Hrem : forall b, sched_list_of (dwc_otg_hcd_qh_remove hcd p qh) b
                           = list_del p (sched_list_of hcd b)).
  { intros b. unfold dwc_otg_hcd_qh_remove.
    destruct (qh_list_entry_empty hcd p) eqn:E.
    - apply qh_list_entry_empty_true in E. symmetry.
      apply list_del_not_elem_of. intros Hin. apply E. exists b. exact Hin.
    - rewrite Hnon. destruct (list_head_ptr_eqb _ _); destruct b; reflexivity. }
  assert (Hcnt : periodic_channels (dwc_otg_hcd_qh_remove hcd p qh)
                 = periodic_channels hcd
                 /\ periodic_usecs (dwc_otg_hcd_qh_remove hcd p qh)
                    = periodic_usecs hcd
                 /\ bus (dwc_otg_hcd_qh_remove hcd p qh) = bus hcd).
  { unfold dwc_otg_hcd_qh_remove.
    destruct (qh_list_entry_empty hcd p); [auto|].
    rewrite Hnon. destruct (list_head_ptr_eqb _ _); auto. }
  destruct Hcnt as (Hc & Hu & Hb).
  pose proof (qh_remove_not_in_schedule hcd p qh) as Hgone.
  destruct (decide (qtd_list qh = [])) as [Hq | Hq].
  - rewrite (bool_decide_eq_true_2 _ Hq). cbn [negb fst snd].
    split; [reflexivity|]. split; [exact Hc|]. split; [exact Hu|].
    split; [exact Hb|].
    split; [intros Hne; contradiction | intros _; exact Hrem].
  - rewrite (bool_decide_eq_false_2 _ Hq). cbn [negb fst snd].
    unfold dwc_otg_hcd_qh_add.
    apply qh_list_entry_empty_true in Hgone. rewrite Hgone, Hnon.
    cbn [negb fst snd].
    split; [reflexivity|]. split; [exact Hc|]. split; [exact Hu|].
    split; [exact Hb|].
    split; [|intros Hq'; contradiction].
    intros _. split.
    + pose proof (Hrem NON_PERIODIC_SCHED_INACTIVE) as H0.
      cbn [sched_list_of] in H0. unfold list_add_tail.
      cbn -[dwc_otg_hcd_qh_remove list_del]. rewrite H0. reflexivity.
    + intros b Hne. rewrite <- (Hrem b).
      destruct b; try reflexivity. contradiction.
Qed.

(** *** Restarting a split sequence *)

Lemma lor_7_eq x : Z.lor x 7 = 8 * (x / 8) + 7.
Proof.
  assert (E1 : Z.lor x 7 = Z.lor (Z.ldiff x 7) 7).
  { apply Z.bits_inj'. intros n Hn.
    rewrite !Z.lor_spec, Z.ldiff_spec.
    destruct (Z.testbit x n), (Z.testbit 7 n); reflexivity. }
  assert (E2 : Z.land (Z.ldiff x 7) 7 = 0).
  { apply Z.bits_inj'. intros n Hn.
    rewrite Z.land_spec, Z.ldiff_spec, Z.bits_0.
    destruct (Z.testbit x n), (Z.testbit 7 n); reflexivity. }
  rewrite E1, <- (Z.lxor_lor _ _ E2), <- (Z.add_nocarry_lxor _ _ E2).
  change 7 with (Z.ones 3) at 1.
  rewrite Z.ldiff_ones_r by lia.
  rewrite Z.shiftr_div_pow2, Z.shiftl_mul_pow2 by lia.
  change (2 ^ 3) with 8. lia.
Qed.

Lemma lor_7_bounds x : x <= Z.lor x 7 < x + 8 /\ Z.lor x 7 mod 8 = 7.
Proof.
  rewrite lor_7_eq.
  pose proof (Z.div_mod x 8 ltac:(lia)) as Hd.
  pose proof (Z.mod_pos_bound x 8 ltac:(lia)) as Hm.
  split; [lia|].
  rewrite Z.add_comm, Z.mul_comm, Z.mod_add by lia. reflexivity.
Qed.

Section PlainFrameNumbersSplit.

Hypothesis dwc_frame_num_inc_plain :
  forall frame inc, dwc_frame_num_inc frame inc = frame + inc.
Hypothesis dwc_frame_num_le_plain :
  forall frame1 frame2, dwc_frame_num_le frame1 frame2 = (frame1 <=? frame2).

(** With frame helpers that add and compare: a split QH deactivated with
    [sched_next_periodic_split] clear is next scheduled in the last
    microframe (number 7) of the frame that holds
    [start_split_frame + interval], or of the current frame when that is
    later; the new [sched_frame] is not before the current frame number,
    and [start_split_frame] is set to it. *)
Theorem deactivate_split_restart_aligned hcd p qh :
  dwc_qh_is_non_per qh = false ->
  do_split qh <> 0 ->
  let frame_number := to_uint16 (dwc_otg_hcd_get_frame_number hcd) in
  let qh' := snd (dwc_otg_hcd_qh_deactivate hcd p qh 0) in
  let base := Z.max (start_split_frame qh + interval qh) frame_number in
  sched_frame qh' = 8 * (base / 8) + 7
  /\ base <= sched_frame qh' < base + 8
  /\ sched_frame qh' mod 8 = 7
  /\ frame_number <= sched_frame qh'
  /\ start_split_frame qh' = sched_frame qh'.
Proof using dwc_frame_num_inc_plain dwc_frame_num_le_plain.
  intros Hper Hsplit frame_number qh' base.
  destruct (deactivate_split_restart hcd p qh Hper Hsplit) as [Hs Hssf].
  fold frame_number in Hs. fold qh' in Hs, Hssf.
  rewrite dwc_frame_num_inc_plain, dwc_frame_num_le_plain in Hs.
  assert (E : sched_frame qh' = Z.lor base 7).
  { rewrite Hs. subst base. f_equal.
    destruct (Z.leb_spec (start_split_frame qh + interval qh) frame_number); lia. }
  pose proof (lor_7_bounds base) as [Hb Hm]. rewrite <- E in Hb, Hm.
  split; [rewrite E; apply lor_7_eq|].
  split; [exact Hb|]. split; [exact Hm|].
  split; [subst base; lia | exact Hssf].
Qed.

End PlainFrameNumbersSplit.

(** *** Queueing transfer descriptors *)

Lemma qh_init_qtd_list hcd urb : qtd_list (dwc_otg_hcd_qh_init hcd urb) = [].
Proof.
  unfold dwc_otg_hcd_qh_init.
  destruct (urb_pipetype urb); cbn; try reflexivity;
    destruct (hprt0 hcd); try reflexivity;
    destruct (is_low_or_full (urb_dev_speed urb)); reflexivity.
Qed.

Lemma set_qtd_list_id qh : set_qtd_list (qtd_list qh) qh = qh.
Proof. destruct qh; reflexivity. Qed.

Lemma qtd_add_to_qh_granted qtd p qh st :
  fst (dwc_otg_hcd_qh_add (st_hcd st) p qh) = 0 ->
  qtd_add_to_qh qtd p qh st
  = (0, {| st_hcd := snd (dwc_otg_hcd_qh_add (st_hcd st) p qh);
           st_qh := <[p := set_qtd_list (qtd_list qh ++ [qtd]) qh]> (st_qh st);
           st_hcpriv := st_hcpriv st |}).
Proof.
  unfold qtd_add_to_qh.
  destruct (dwc_otg_hcd_qh_add (st_hcd st) p qh) as [retval hcd]. cbn.
  intros ->. reflexivity.
Qed.

Lemma qtd_add_to_qh_denied qtd p qh st :
  fst (dwc_otg_hcd_qh_add (st_hcd st) p qh) <> 0 ->
  qtd_add_to_qh qtd p qh st
  = (- ENOSPC, {| st_hcd := st_hcd st; st_qh := st_qh st;
                  st_hcpriv := st_hcpriv st |})
  /\ ~ in_schedule (st_hcd st) p /\ dwc_qh_is_non_per qh = false.
Proof.
  intros Hne.
  destruct (qh_add_cases (st_hcd st) p qh) as [H0 | (E & Hout & Hper)];
    [contradiction|].
  split; [|split; assumption].
  unfold qtd_add_to_qh. rewrite E. reflexivity.
Qed.

(** A successful [dwc_otg_hcd_qtd_add] that found or created a QH links
    the QTD last on the QTD list of the endpoint's QH, which is on a
    schedule afterwards; the list of a new QH holds this QTD alone, and no
    other QH is written. *)
Theorem qtd_add_queued alloc qtd q st st' :
  dwc_otg_hcd_qtd_add alloc qtd q st = Some (0, st') ->
  is_Some (st_hcpriv st !! urb_ep (qtd_urb q)) \/ is_Some alloc ->
  exists p qh,
    (st_hcpriv st !! urb_ep (qtd_urb q) = Some p /\ st_qh st !! p = Some qh
     \/ st_hcpriv st !! urb_ep (qtd_urb q) = None /\ alloc = Some p
        /\ qh = dwc_otg_hcd_qh_init (st_hcd st) (qtd_urb q)
        /\ qtd_list qh = [])
    /\ st_hcpriv st' !! urb_ep (qtd_urb q) = Some p
    /\ st_qh st' !! p = Some (set_qtd_list (qtd_list qh ++ [qtd]) qh)
    /\ in_schedule (st_hcd st') p
    /\ (forall p', p' <> p -> st_qh st' !! p' = st_qh st !! p').
Proof.
  unfold dwc_otg_hcd_qtd_add. intros Hadd Hsome.
  destruct (st_hcpriv st !! urb_ep (qtd_urb q)) as [p|] eqn:Hpriv.
  - destruct (st_qh st !! p) as [qh|] eqn:Hqh; [|discriminate Hadd].
    exists p, qh. split; [left; auto|].
    destruct (decide (fst (dwc_otg_hcd_qh_add (st_hcd st) p qh) = 0)) as [H0 | H0].
    + rewrite (qtd_add_to_qh_granted qtd p qh st H0) in Hadd.
      inversion Hadd; subst st'; cbn.
      split; [exact Hpriv|]. split; [apply lookup_insert_eq|].
      split; [apply qh_add_in_schedule, H0|].
      intros p' Hne. apply lookup_insert_ne. congruence.
    + destruct (qtd_add_to_qh_denied qtd p qh st H0) as [E _].
      rewrite E in Hadd. inversion Hadd.
  - destruct alloc as [p|]; cbn in Hadd.
    2:{ destruct Hsome as [[? H] | [? H]]; discriminate H. }
    set (qh := dwc_otg_hcd_qh_init (st_hcd st) (qtd_urb q)) in *.
    exists p, qh.
    split; [right; repeat split; apply qh_init_qtd_list|].
    set (st1 := {| st_hcd := st_hcd st; st_qh := <[p := qh]> (st_qh st);
                   st_hcpriv := <[urb_ep (qtd_urb q) := p]> (st_hcpriv st) |}) in *.
    destruct (decide (fst (dwc_otg_hcd_qh_add (st_hcd st1) p qh) = 0)) as [H0 | H0].
    + rewrite (qtd_add_to_qh_granted qtd p qh st1 H0) in Hadd.
      inversion Hadd; subst st'; cbn.
      split; [apply lookup_insert_eq|]. split; [apply lookup_insert_eq|].
      split; [apply qh_add_in_schedule, H0|].
      intros p' Hne. rewrite !lookup_insert_ne by congruence. reflexivity.
    + destruct (qtd_add_to_qh_denied qtd p qh st1 H0) as [E _].
      rewrite E in Hadd. inversion Hadd.
Qed.

(** When [dwc_otg_hcd_qtd_add] returns an error, the error is [-ENOSPC],
    the HCD is unchanged and the QTD is linked nowhere.  The QH of the
    endpoint is periodic and on no schedule; a QH created by this call is
    not freed: it stays allocated, with an empty QTD list, as
    [ep->hcpriv]. *)
Theorem qtd_add_refused alloc qtd q st r st' :
  dwc_otg_hcd_qtd_add alloc qtd q st = Some (r, st') ->
  r <> 0 ->
  r = - ENOSPC
  /\ st_hcd st' = st_hcd st
  /\ (forall p qh, st_qh st' !! p = Some qh -> qtd ∈ qtd_list qh ->
        st_qh st !! p = Some qh)
  /\ exists p qh,
       st_hcpriv st' !! urb_ep (qtd_urb q) = Some p
       /\ st_qh st' !! p = Some qh
       /\ dwc_qh_is_non_per qh = false
       /\ ~ in_schedule (st_hcd st') p
       /\ (st_hcpriv st !! urb_ep (qtd_urb q) = None ->
             alloc = Some p /\ qtd_list qh = []
             /\ st_qh st' = <[p := qh]> (st_qh st)).
Proof.
  unfold dwc_otg_hcd_qtd_add. intros Hadd Hr.
  destruct (st_hcpriv st !! urb_ep (qtd_urb q)) as [p|] eqn:Hpriv.
  - destruct (st_qh st !! p) as [qh|] eqn:Hqh; [|discriminate Hadd].
    destruct (decide (fst (dwc_otg_hcd_qh_add (st_hcd st) p qh) = 0)) as [H0 | H0].
    + rewrite (qtd_add_to_qh_granted qtd p qh st H0) in Hadd.
      inversion Hadd. congruence.
    + destruct (qtd_add_to_qh_denied qtd p qh st H0) as (E & Hout & Hper).
      rewrite E in Hadd. inversion Hadd; subst r st'; cbn.
      split; [reflexivity|]. split; [reflexivity|].
      split; [intros p' qh' H _; exact H|].
      exists p, qh. repeat split; try assumption. all: discriminate.
  - destruct alloc as [p|]; cbn in Hadd; [|inversion Hadd; congruence].
    set (qh := dwc_otg_hcd_qh_init (st_hcd st) (qtd_urb q)) in *.
    set (st1 := {| st_hcd := st_hcd st; st_qh := <[p := qh]> (st_qh st);
                   st_hcpriv := <[urb_ep (qtd_urb q) := p]> (st_hcpriv st) |}) in *.
    destruct (decide (fst (dwc_otg_hcd_qh_add (st_hcd st1) p qh) = 0)) as [H0 | H0].
    + rewrite (qtd_add_to_qh_granted qtd p qh st1 H0) in Hadd.
      inversion Hadd. congruence.
    + destruct (qtd_add_to_qh_denied qtd p qh st1 H0) as (E & Hout & Hper).
      rewrite E in Hadd. inversion Hadd; subst r st'; cbn.
      split; [reflexivity|]. split; [reflexivity|].
      split.
      { intros p' qh' H Hin.
        destruct (decide (p' = p)) as [-> | Hne].
        - rewrite lookup_insert_eq in H. inversion H; subst qh'.
          unfold qh in Hin. rewrite qh_init_qtd_list in Hin.
          apply elem_of_nil in Hin. contradiction.
        - rewrite lookup_insert_ne in H by congruence. exact H. }
      exists p, qh.
      split; [apply lookup_insert_eq|]. split; [apply lookup_insert_eq|].
      split; [exact Hper|]. split; [exact Hout|].
      intros _. split; [reflexivity|]. split; [apply qh_init_qtd_list | reflexivity].
Qed.

(** QTDs queued one after the other for an endpoint whose QH is scheduled
    are linked in the order of the calls, behind the QTDs that were there;
    every call returns 0, and neither the HCD nor any other QH changes. *)
Theorem qtd_add_each_fifo alloc qtds q st p qh :
  st_hcpriv st !! urb_ep (qtd_urb q) = Some p ->
  st_qh st !! p = Some qh ->
  in_schedule (st_hcd st) p ->
  exists st',
    qtd_add_each alloc qtds q st = Some (replicate (length qtds) 0, st')
    /\ st_hcd st' = st_hcd st
    /\ st_hcpriv st' = st_hcpriv st
    /\ st_qh st' = <[p := set_qtd_list (qtd_list qh ++ qtds) qh]> (st_qh st).
Proof.
  revert st qh. induction qtds as [|qtd qtds IH]; intros st qh Hpriv Hqh Hin.
  - exists st. cbn. repeat split.
    rewrite app_nil_r, set_qtd_list_id. symmetry. apply insert_id, Hqh.
  - cbn [qtd_add_each]. unfold dwc_otg_hcd_qtd_add. rewrite Hpriv, Hqh.
    pose proof (qh_add_scheduled (st_hcd st) p qh Hin) as Hadd.
    rewrite (qtd_add_to_qh_granted qtd p qh st) by (rewrite Hadd; reflexivity).
    rewrite Hadd. cbn [snd].
    set (qh1 := set_qtd_list (qtd_list qh ++ [qtd]) qh).
    set (st1 := {| st_hcd := st_hcd st; st_qh := <[p := qh1]> (st_qh st);
                   st_hcpriv := st_hcpriv st |}).
    destruct (IH st1 qh1) as (st' & Heach & Hh & Hp & Hq).
    + exact Hpriv.
    + apply lookup_insert_eq.
    + exact Hin.
    + exists st'. unfold dwc_otg_hcd_qtd_add in Heach. rewrite Heach.
      split; [reflexivity|]. split; [exact Hh|]. split; [exact Hp|].
      rewrite Hq. cbn. rewrite insert_insert_eq.
      rewrite <- app_assoc. reflexivity.
Qed.

(** *** The bookkeeping of the periodic reservations *)

Lemma claimed_usecs_app qhs l1 l2 :
  claimed_usecs qhs (l1 ++ l2) = claimed_usecs qhs l1 + claimed_usecs qhs l2.
Proof.
  unfold claimed_usecs. induction l1 as [|x l1 IH]; cbn; [reflexivity|].
  rewrite IH. lia.
Qed.

Lemma claimed_usecs_perm qhs l l' :
  l ≡ₚ l' -> claimed_usecs qhs l = claimed_usecs qhs l'.
Proof.
  unfold claimed_usecs. induction 1; cbn; lia.
Qed.

Lemma claimed_usecs_ext qhs qhs' l :
  (forall q, q ∈ l -> usecs_at qhs q = usecs_at qhs' q) ->
  claimed_usecs qhs l = claimed_usecs qhs' l.
Proof.
  unfold claimed_usecs. induction l as [|x l IH]; intros H; cbn; [reflexivity|].
  rewrite (H x) by left. rewrite IH; [reflexivity|].
  intros q Hq. apply H. right. exact Hq.
Qed.

Lemma list_del_perm p l : NoDup l -> p ∈ l -> l ≡ₚ p :: list_del p l.
Proof.
  induction l as [|x l IH]; intros Hnd Hin.
  - apply elem_of_nil in Hin. contradiction.
  - apply NoDup_cons in Hnd as [Hx Hnd].
    destruct (decide (x = p)) as [-> | Hne].
    + rewrite list_del_cons_eq, (list_del_not_elem_of p l Hx). reflexivity.
    + apply elem_of_cons in Hin as [-> | Hin]; [contradiction|].
      unfold list_del. rewrite filter_cons_True by exact Hne.
      fold (list_del p l). rewrite (IH Hnd Hin) at 1. apply Permutation_swap.
Qed.

Lemma sched_entries_split hcd :
  sched_entries hcd = non_periodic_entries hcd ++ periodic_entries hcd.
Proof.
  unfold sched_entries, non_periodic_entries, periodic_entries.
  rewrite <- app_assoc. reflexivity.
Qed.

Lemma periodic_entries_list_del_init p hcd :
  periodic_entries (list_del_init p hcd) = list_del p (periodic_entries hcd).
Proof.
  unfold periodic_entries, list_del_init, list_del. cbn.
  rewrite !filter_app. reflexivity.
Qed.

Lemma non_periodic_entries_list_del_init p hcd :
  non_periodic_entries (list_del_init p hcd) = list_del p (non_periodic_entries hcd).
Proof.
  unfold non_periodic_entries, list_del_init, list_del. cbn.
  rewrite !filter_app. reflexivity.
Qed.

Lemma accounted_NoDup st :
  accounted st ->
  NoDup (non_periodic_entries (st_hcd st))
  /\ NoDup (periodic_entries (st_hcd st))
  /\ (forall p, p ∈ non_periodic_entries (st_hcd st) ->
        p ∉ periodic_entries (st_hcd st)).
Proof.
  intros Hacc. pose proof (acc_wf st Hacc) as Hwf.
  unfold sched_wf in Hwf. rewrite sched_entries_split, NoDup_app in Hwf.
  clear_helpers; tauto.
Qed.

(** Where an allocated QH can be linked, by its kind. *)
Lemma accounted_kind st p qh :
  accounted st -> st_qh st !! p = Some qh ->
  (dwc_qh_is_non_per qh = true -> p ∉ periodic_entries (st_hcd st))
  /\ (dwc_qh_is_non_per qh = false -> p ∉ non_periodic_entries (st_hcd st)).
Proof.
  intros Hacc Hqh. split; intros Hk Hin.
  - destruct (acc_periodic st Hacc p Hin) as (qh' & Hqh' & Hk'). congruence.
  - destruct (acc_non_periodic st Hacc p Hin) as (qh' & Hqh' & Hk'). congruence.
Qed.

Lemma accounted_in_schedule st p qh :
  accounted st -> st_qh st !! p = Some qh -> in_schedule (st_hcd st) p ->
  if dwc_qh_is_non_per qh
  then p ∈ non_periodic_entries (st_hcd st)
  else p ∈ periodic_entries (st_hcd st).
Proof.
  intros Hacc Hqh Hin.
  destruct (accounted_kind st p qh Hacc Hqh) as [Hn Hp].
  apply in_schedule_entries in Hin.
  rewrite sched_entries_split, elem_of_app in Hin.
  destruct (dwc_qh_is_non_per qh); destruct Hin as [Hin | Hin];
    try exact Hin; exfalso.
  - exact (Hn eq_refl Hin).
  - exact (Hp eq_refl Hin).
Qed.

Lemma accounted_unscheduled st p :
  accounted st -> st_qh st !! p = None -> ~ in_schedule (st_hcd st) p.
Proof.
  intros Hacc Hnone Hin. apply in_schedule_entries in Hin.
  rewrite sched_entries_split, elem_of_app in Hin.
  destruct Hin as [Hin | Hin].
  - destruct (acc_non_periodic st Hacc p Hin) as (qh & Hqh & _). congruence.
  - destruct (acc_periodic st Hacc p Hin) as (qh & Hqh & _). congruence.
Qed.

(** Writing a QH that keeps its type and its [usecs], or allocating one at
    a free address, does not disturb the bookkeeping. *)
Lemma accounted_store st p qh' hcpriv' :
  accounted st ->
  match st_qh st !! p with
  | Some qh => ep_type qh' = ep_type qh /\ usecs qh' = usecs qh
  | None => True
  end ->
  (forall ep r, hcpriv' !! ep = Some r ->
     r = p \/ st_hcpriv st !! ep = Some r) ->
  accounted {| st_hcd := st_hcd st; st_qh := <[p := qh']> (st_qh st);
               st_hcpriv := hcpriv' |}.
Proof.
  intros Hacc Hsame Hpriv.
  assert (Hkeep : forall q, q ∈ sched_entries (st_hcd st) ->
            exists qh, st_qh st !! q = Some qh
              /\ exists qh2, <[p := qh']> (st_qh st) !! q = Some qh2
                   /\ dwc_qh_is_non_per qh2 = dwc_qh_is_non_per qh
                   /\ usecs qh2 = usecs qh).
  { intros q Hq. rewrite sched_entries_split, elem_of_app in Hq.
    assert (exists qh, st_qh st !! q = Some qh) as [qh Hqh].
    { destruct Hq as [Hq | Hq].
      - destruct (acc_non_periodic st Hacc q Hq) as (qh & Hqh & _). eauto.
      - destruct (acc_periodic st Hacc q Hq) as (qh & Hqh & _). eauto. }
    exists qh. split; [exact Hqh|].
    destruct (decide (q = p)) as [-> | Hne].
    - rewrite Hqh in Hsame. destruct Hsame as [Ht Hu].
      exists qh'. rewrite lookup_insert_eq. unfold dwc_qh_is_non_per.
      rewrite Ht. auto.
    - exists qh. rewrite lookup_insert_ne by congruence. auto. }
  assert (Hper : forall q, q ∈ periodic_entries (st_hcd st) ->
            q ∈ sched_entries (st_hcd st))
    by (intros q Hq; rewrite sched_entries_split, elem_of_app; auto).
  assert (Hnon : forall q, q ∈ non_periodic_entries (st_hcd st) ->
            q ∈ sched_entries (st_hcd st))
    by (intros q Hq; rewrite sched_entries_split, elem_of_app; auto).
  constructor; cbn.
  - exact (acc_wf st Hacc).
  - intros q Hq.
    destruct (Hkeep q (Hper q Hq)) as (qh & Hqh & qh2 & Hqh2 & Hk & _).
    destruct (acc_periodic st Hacc q Hq) as (qh0 & Hqh0 & Hk0).
    exists qh2. split; [exact Hqh2|]. congruence.
  - intros q Hq.
    destruct (Hkeep q (Hnon q Hq)) as (qh & Hqh & qh2 & Hqh2 & Hk & _).
    destruct (acc_non_periodic st Hacc q Hq) as (qh0 & Hqh0 & Hk0).
    exists qh2. split; [exact Hqh2|]. congruence.
  - intros ep r Hr. destruct (Hpriv ep r Hr) as [-> | Hold].
    + rewrite lookup_insert_eq. eauto.
    + destruct (decide (r = p)) as [-> | Hne].
      * rewrite lookup_insert_eq. eauto.
      * rewrite lookup_insert_ne by congruence.
        exact (acc_hcpriv st Hacc ep r Hold).
  - exact (acc_channels st Hacc).
  - rewrite (acc_usecs st Hacc). apply claimed_usecs_ext.
    intros q Hq.
    destruct (Hkeep q (Hper q Hq)) as (qh & Hqh & qh2 & Hqh2 & _ & Hu).
    unfold usecs_at. rewrite Hqh, Hqh2. cbn. congruence.
Qed.

Lemma state_eta st :
  {| st_hcd := st_hcd st; st_qh := st_qh st; st_hcpriv := st_hcpriv st |} = st.
Proof. destruct st; reflexivity. Qed.

Lemma length_list_del p l :
  NoDup l -> p ∈ l -> Z.of_nat (length (list_del p l)) = Z.of_nat (length l) - 1.
Proof.
  intros Hnd Hin. rewrite (Permutation_length (list_del_perm p l Hnd Hin)).
  cbn [length]. lia.
Qed.

Lemma claimed_usecs_list_del qhs p l :
  NoDup l -> p ∈ l ->
  claimed_usecs qhs (list_del p l) = claimed_usecs qhs l - usecs_at qhs p.
Proof.
  intros Hnd Hin.
  rewrite (claimed_usecs_perm qhs l _ (list_del_perm p l Hnd Hin)).
  unfold claimed_usecs. cbn. lia.
Qed.

Lemma accounted_qh_add st p qh :
  accounted st -> st_qh st !! p = Some qh ->
  accounted {| st_hcd := snd (dwc_otg_hcd_qh_add (st_hcd st) p qh);
               st_qh := st_qh st; st_hcpriv := st_hcpriv st |}.
Proof.
  intros Hacc Hqh.
  pose proof (sched_wf_qh_add (st_hcd st) p qh (acc_wf st Hacc)) as Hwf.
  unfold dwc_otg_hcd_qh_add in *.
  destruct (qh_list_entry_empty (st_hcd st) p) eqn:E; cbn [negb] in *;
    [|cbn; rewrite state_eta; exact Hacc].
  apply qh_list_entry_empty_true in E.
  destruct (dwc_qh_is_non_per qh) eqn:K; cbn [snd] in *.
  - constructor; cbn [st_hcd st_qh st_hcpriv].
    + exact Hwf.
    + exact (acc_periodic st Hacc).
    + intros q Hq. unfold non_periodic_entries, list_add_tail in Hq. cbn in Hq.
      rewrite !elem_of_app in Hq.
      destruct Hq as [[Hq | Hq] | Hq].
      * apply (acc_non_periodic st Hacc). unfold non_periodic_entries.
        apply elem_of_app. auto.
      * apply list_elem_of_singleton in Hq. subst q. eauto.
      * apply (acc_non_periodic st Hacc). unfold non_periodic_entries.
        apply elem_of_app. auto.
    + exact (acc_hcpriv st Hacc).
    + exact (acc_channels st Hacc).
    + exact (acc_usecs st Hacc).
  - destruct (schedule_periodic_cases (st_hcd st) p qh) as [H | H];
      rewrite H in *; cbn [snd] in *; [|rewrite state_eta; exact Hacc].
    assert (Hperm : periodic_entries (scheduled (st_hcd st) p qh)
                    ≡ₚ p :: periodic_entries (st_hcd st)).
    { unfold periodic_entries, scheduled, list_add_tail. cbn. clear.
      solve_Permutation. }
    constructor; cbn [st_hcd st_qh st_hcpriv].
    + exact Hwf.
    + intros q Hq. rewrite Hperm in Hq.
      apply elem_of_cons in Hq as [-> | Hq]; [eauto|].
      exact (acc_periodic st Hacc q Hq).
    + exact (acc_non_periodic st Hacc).
    + exact (acc_hcpriv st Hacc).
    + rewrite (Permutation_length Hperm). cbn [length].
      change (periodic_channels (scheduled (st_hcd st) p qh))
        with (periodic_channels (st_hcd st) + 1).
      rewrite (acc_channels st Hacc). lia.
    + rewrite (claimed_usecs_perm _ _ _ Hperm).
      change (periodic_usecs (scheduled (st_hcd st) p qh))
        with (periodic_usecs (st_hcd st) + usecs qh).
      rewrite (acc_usecs st Hacc).
      change (claimed_usecs (st_qh st) (p :: periodic_entries (st_hcd st)))
        with (usecs_at (st_qh st) p
              + claimed_usecs (st_qh st) (periodic_entries (st_hcd st))).
      unfold usecs_at. rewrite Hqh. cbn [from_option]. lia.
Qed.

Lemma accounted_qh_remove st p qh qh' :
  accounted st -> st_qh st !! p = Some qh ->
  ep_type qh' = ep_type qh -> usecs qh' = usecs qh ->
  accounted {| st_hcd := dwc_otg_hcd_qh_remove (st_hcd st) p qh';
               st_qh := st_qh st; st_hcpriv := st_hcpriv st |}.
Proof.
  intros Hacc Hqh Ht Hu.
  pose proof (sched_wf_qh_remove (st_hcd st) p qh' (acc_wf st Hacc)) as Hwf.
  destruct (accounted_NoDup st Hacc) as (Hndn & Hndp & _).
  destruct (accounted_kind st p qh Hacc Hqh) as [Hkn Hkp].
  assert (Hk : dwc_qh_is_non_per qh' = dwc_qh_is_non_per qh)
    by (unfold dwc_qh_is_non_per; rewrite Ht; reflexivity).
  unfold dwc_otg_hcd_qh_remove in *.
  destruct (qh_list_entry_empty (st_hcd st) p) eqn:E;
    [rewrite state_eta; exact Hacc|].
  apply qh_list_entry_empty_false in E.
  pose proof (accounted_in_schedule st p qh Hacc Hqh E) as Hin.
  rewrite Hk in *.
  destruct (dwc_qh_is_non_per qh).
  - (* a control or bulk QH leaves the non-periodic schedules *)
    assert (Hper : forall hcd', periodic_entries (list_del_init p hcd')
                     = list_del p (periodic_entries hcd'))
      by (intros; apply periodic_entries_list_del_init).
    assert (Hgen : forall hcd',
              sched_wf (list_del_init p hcd') ->
              periodic_entries hcd' = periodic_entries (st_hcd st) ->
              non_periodic_entries hcd' = non_periodic_entries (st_hcd st) ->
              periodic_channels hcd' = periodic_channels (st_hcd st) ->
              periodic_usecs hcd' = periodic_usecs (st_hcd st) ->
              accounted {| st_hcd := list_del_init p hcd'; st_qh := st_qh st;
                           st_hcpriv := st_hcpriv st |}).
    { intros hcd' Hwf' Hp Hn Hc Hus.
      assert (Hp' : periodic_entries (list_del_init p hcd')
                    = periodic_entries (st_hcd st)).
      { rewrite periodic_entries_list_del_init, Hp.
        apply list_del_not_elem_of. auto. }
      constructor; cbn [st_hcd st_qh st_hcpriv].
      - exact Hwf'.
      - rewrite Hp'. exact (acc_periodic st Hacc).
      - intros q Hq. rewrite non_periodic_entries_list_del_init, Hn in Hq.
        apply (acc_non_periodic st Hacc).
        unfold list_del in Hq. apply list_elem_of_filter in Hq. clear_helpers; tauto.
      - exact (acc_hcpriv st Hacc).
      - rewrite Hp'. change (periodic_channels (list_del_init p hcd'))
          with (periodic_channels hcd'). rewrite Hc. exact (acc_channels st Hacc).
      - rewrite Hp'. change (periodic_usecs (list_del_init p hcd'))
          with (periodic_usecs hcd'). rewrite Hus. exact (acc_usecs st Hacc). }
    destruct (list_head_ptr_eqb _ _); apply Hgen; try reflexivity; exact Hwf.
  - (* a periodic QH gives back its channel and its time *)
    rewrite deschedule_periodic_eq in *.
    assert (Hp' : periodic_entries
                    (with_sched (st_hcd st)
                       (list_del p (non_periodic_sched_inactive (st_hcd st)))
                       (list_del p (non_periodic_sched_active (st_hcd st)))
                       (non_periodic_qh_ptr (st_hcd st))
                       (list_del p (periodic_sched_inactive (st_hcd st)))
                       (list_del p (periodic_sched_ready (st_hcd st)))
                       (list_del p (periodic_sched_queued (st_hcd st)))
                       (periodic_usecs (st_hcd st) - usecs qh')
                       (periodic_channels (st_hcd st) - 1)
                       (account_periodic (-1) qh' (bus (st_hcd st))))
                  = list_del p (periodic_entries (st_hcd st)))
      by apply (periodic_entries_list_del_init p (st_hcd st)).
    constructor; cbn [st_hcd st_qh st_hcpriv].
    + exact Hwf.
    + rewrite Hp'. intros q Hq. apply (acc_periodic st Hacc).
      unfold list_del in Hq. apply list_elem_of_filter in Hq. clear_helpers; tauto.
    + intros q Hq.
      change (q ∈ non_periodic_entries (list_del_init p (st_hcd st))) in Hq.
      rewrite non_periodic_entries_list_del_init in Hq.
      apply (acc_non_periodic st Hacc).
      unfold list_del in Hq. apply list_elem_of_filter in Hq. clear_helpers; tauto.
    + exact (acc_hcpriv st Hacc).
    + rewrite Hp', (length_list_del p _ Hndp Hin), (acc_channels st Hacc).
      reflexivity.
    + rewrite Hp', (claimed_usecs_list_del _ p _ Hndp Hin), (acc_usecs st Hacc).
      unfold usecs_at. rewrite Hqh. cbn. rewrite Hu. reflexivity.
Qed.

Lemma accounted_list_move st p qh :
  accounted st -> st_qh st !! p = Some qh ->
  dwc_qh_is_non_per qh = false -> in_schedule (st_hcd st) p ->
  accounted {| st_hcd := list_move_periodic_sched_ready p (st_hcd st);
               st_qh := st_qh st; st_hcpriv := st_hcpriv st |}
  /\ accounted {| st_hcd := list_move_periodic_sched_inactive p (st_hcd st);
                  st_qh := st_qh st; st_hcpriv := st_hcpriv st |}.
Proof.
  intros Hacc Hqh Hk Hsched.
  destruct (accounted_NoDup st Hacc) as (Hndn & Hndp & _).
  destruct (accounted_kind st p qh Hacc Hqh) as [_ Hkp].
  pose proof (accounted_in_schedule st p qh Hacc Hqh Hsched) as Hin.
  rewrite Hk in Hin. specialize (Hkp Hk).
  destruct (sched_wf_list_move (st_hcd st) p (acc_wf st Hacc)) as [Hwr Hwi].
  assert (Hgen : forall hcd',
            sched_wf hcd' ->
            periodic_entries hcd' ≡ₚ p :: list_del p (periodic_entries (st_hcd st)) ->
            non_periodic_entries hcd'
            = list_del p (non_periodic_entries (st_hcd st)) ->
            periodic_channels hcd' = periodic_channels (st_hcd st) ->
            periodic_usecs hcd' = periodic_usecs (st_hcd st) ->
            accounted {| st_hcd := hcd'; st_qh := st_qh st;
                         st_hcpriv := st_hcpriv st |}).
  { intros hcd' Hwf' Hp Hn Hc Hus.
    assert (Hp' : periodic_entries hcd' ≡ₚ periodic_entries (st_hcd st))
      by (rewrite Hp; symmetry; apply list_del_perm; assumption).
    constructor; cbn [st_hcd st_qh st_hcpriv].
    - exact Hwf'.
    - intros q Hq. rewrite Hp' in Hq. exact (acc_periodic st Hacc q Hq).
    - intros q Hq. rewrite Hn, (list_del_not_elem_of _ _ Hkp) in Hq.
      exact (acc_non_periodic st Hacc q Hq).
    - exact (acc_hcpriv st Hacc).
    - rewrite Hc, (Permutation_length Hp'). exact (acc_channels st Hacc).
    - rewrite Hus, (claimed_usecs_perm _ _ _ Hp'). exact (acc_usecs st Hacc). }
  split; apply Hgen; try reflexivity; try assumption.
  - unfold periodic_entries, list_move_periodic_sched_ready, list_add, list_del.
    cbn. rewrite !filter_app. clear. solve_Permutation.
  - apply (non_periodic_entries_list_del_init p (st_hcd st)).
  - unfold periodic_entries, list_move_periodic_sched_inactive, list_add, list_del.
    cbn. rewrite !filter_app. clear. solve_Permutation.
  - apply (non_periodic_entries_list_del_init p (st_hcd st)).
Qed.

Lemma accounted_qtd_add_to_qh qtd st p qh :
  accounted st -> st_qh st !! p = Some qh ->
  accounted (snd (qtd_add_to_qh qtd p qh st)).
Proof.
  intros Hacc Hqh.
  destruct (decide (fst (dwc_otg_hcd_qh_add (st_hcd st) p qh) = 0)) as [H0 | H0].
  - rewrite (qtd_add_to_qh_granted qtd p qh st H0). cbn [snd].
    apply (accounted_store
             {| st_hcd := snd (dwc_otg_hcd_qh_add (st_hcd st) p qh);
                st_qh := st_qh st; st_hcpriv := st_hcpriv st |}
             p (set_qtd_list (qtd_list qh ++ [qtd]) qh) (st_hcpriv st)).
    + apply accounted_qh_add; assumption.
    + cbn [st_qh]. rewrite Hqh. split; reflexivity.
    + intros ep r Hr. right. exact Hr.
  - destruct (qtd_add_to_qh_denied qtd p qh st H0) as [E _].
    rewrite E. cbn [snd]. rewrite state_eta. exact Hacc.
Qed.

Lemma accounted_qtd_add_defined alloc qtd q st :
  accounted st ->
  (forall p, alloc = Some p -> st_qh st !! p = None) ->
  exists retval st',
    dwc_otg_hcd_qtd_add alloc qtd q st = Some (retval, st')
    /\ (retval = 0 \/ retval = - ENOSPC)
    /\ accounted st'.
Proof.
  intros Hacc Hfresh. unfold dwc_otg_hcd_qtd_add.
  assert (Hto : forall st1 p qh, accounted st1 -> st_qh st1 !! p = Some qh ->
            exists retval st',
              Some (qtd_add_to_qh qtd p qh st1) = Some (retval, st')
              /\ (retval = 0 \/ retval = - ENOSPC) /\ accounted st').
  { intros st1 p qh Hacc1 Hqh.
    pose proof (accounted_qtd_add_to_qh qtd st1 p qh Hacc1 Hqh) as Hres.
    destruct (decide (fst (dwc_otg_hcd_qh_add (st_hcd st1) p qh) = 0)) as [H0 | H0].
    - rewrite (qtd_add_to_qh_granted qtd p qh st1 H0) in *. eauto 6.
    - destruct (qtd_add_to_qh_denied qtd p qh st1 H0) as [E _].
      rewrite E in *. eauto 6. }
  destruct (st_hcpriv st !! urb_ep (qtd_urb q)) as [p|] eqn:Hpriv.
  - destruct (acc_hcpriv st Hacc _ _ Hpriv) as [qh Hqh]. rewrite Hqh.
    apply Hto; assumption.
  - destruct alloc as [p|]; cbn [dwc_otg_hcd_qh_create]; [|eauto 6].
    apply Hto; [|apply lookup_insert_eq].
    apply (accounted_store st p _ (<[urb_ep (qtd_urb q) := p]> (st_hcpriv st)) Hacc).
    + rewrite (Hfresh p eq_refl). exact I.
    + intros ep r Hr.
      destruct (decide (ep = urb_ep (qtd_urb q))) as [-> | Hne].
      * rewrite lookup_insert_eq in Hr. left. congruence.
      * rewrite lookup_insert_ne in Hr by congruence. right. exact Hr.
Qed.

(** Queueing a QTD keeps the bookkeeping consistent, and on consistent
    bookkeeping the call is defined: [ep->hcpriv] is NULL or points to an
    allocated QH.  The allocator is trusted to hand out an address that
    holds no QH. *)
Theorem accounted_qtd_add alloc qtd q st :
  accounted st ->
  (forall p, alloc = Some p -> st_qh st !! p = None) ->
  exists retval st',
    dwc_otg_hcd_qtd_add alloc qtd q st = Some (retval, st')
    /\ (retval = 0 \/ retval = - ENOSPC)
    /\ accounted st'.
Proof. apply accounted_qtd_add_defined. Qed.

Lemma accounted_qh_deactivate st p qh snps :
  accounted st -> st_qh st !! p = Some qh -> in_schedule (st_hcd st) p ->
  accounted
    {| st_hcd := fst (dwc_otg_hcd_qh_deactivate (st_hcd st) p qh snps);
       st_qh := <[p := snd (dwc_otg_hcd_qh_deactivate (st_hcd st) p qh snps)]>
                  (st_qh st);
       st_hcpriv := st_hcpriv st |}.
Proof.
  intros Hacc Hqh Hin.
  set (r := dwc_otg_hcd_qh_deactivate (st_hcd st) p qh snps).
  assert (Hfields : ep_type (snd r) = ep_type qh /\ usecs (snd r) = usecs qh).
  { subst r. unfold dwc_otg_hcd_qh_deactivate.
    destruct (dwc_qh_is_non_per qh).
    - destruct (negb _); cbn; auto.
    - destruct (next_sched_frame_fields
                  (to_uint16 (dwc_otg_hcd_get_frame_number (st_hcd st))) qh snps)
        as (Ht & _ & _ & Hu & _ & _).
      destruct (bool_decide _); [cbn; auto|].
      destruct (_ =? _); cbn; auto. }
  assert (Hhcd : accounted {| st_hcd := fst r; st_qh := st_qh st;
                              st_hcpriv := st_hcpriv st |}).
  { subst r. unfold dwc_otg_hcd_qh_deactivate.
    destruct (dwc_qh_is_non_per qh) eqn:K.
    - pose proof (accounted_qh_remove st p qh qh Hacc Hqh eq_refl eq_refl) as Hr.
      destruct (negb _); cbn [fst]; [|exact Hr].
      exact (accounted_qh_add _ p qh Hr Hqh).
    - destruct (next_sched_frame_fields
                  (to_uint16 (dwc_otg_hcd_get_frame_number (st_hcd st))) qh snps)
        as (Ht & _ & _ & Hu & _ & _).
      destruct (bool_decide _); cbn [fst].
      + apply (accounted_qh_remove st p qh); assumption.
      + destruct (accounted_list_move st p qh Hacc Hqh K Hin) as [Hready Hinactive].
        destruct (_ =? _); cbn [fst]; assumption. }
  apply (accounted_store _ p (snd r) (st_hcpriv st) Hhcd).
  - cbn [st_qh]. rewrite Hqh. exact Hfields.
  - intros ep r' Hr'. right. exact Hr'.
Qed.

(** Admitting, removing and deactivating an allocated QH keep the
    bookkeeping consistent.  Deactivation is for a QH that is on a
    schedule. *)
Lemma accounted_qh_calls p snps st :
  accounted st ->
  is_Some (st_qh st !! p) ->
  (exists status st', qh_add_at p st = Some (status, st') /\ accounted st')
  /\ (exists st', qh_remove_at p st = Some st' /\ accounted st')
  /\ (in_schedule (st_hcd st) p ->
      exists st', qh_deactivate_at p snps st = Some st' /\ accounted st').
Proof.
  intros Hacc [qh Hqh].
  unfold qh_add_at, qh_remove_at, qh_deactivate_at. rewrite Hqh.
  split; [|split].
  - pose proof (accounted_qh_add st p qh Hacc Hqh) as Ha.
    destruct (dwc_otg_hcd_qh_add (st_hcd st) p qh) as [status hcd]. eauto.
  - eexists. split; [reflexivity|].
    apply (accounted_qh_remove st p qh qh); auto.
  - intros Hin.
    pose proof (accounted_qh_deactivate st p qh snps Hacc Hqh Hin) as Hd.
    destruct (dwc_otg_hcd_qh_deactivate (st_hcd st) p qh snps) as [hcd qh'].
    eauto.
Qed.

Lemma accounted_step st st' : accounted st -> hcd_step st st' -> accounted st'.
Proof.
  intros Hacc Hstep. destruct Hstep as
    [alloc qtd q st retval st' Hfresh Hadd
    | p snps st st' Hin Hd
    | p st st' Hr
    | p st status st' Ha
    | p qh qtds st Hqh].
  - destruct (accounted_qtd_add_defined alloc qtd q st Hacc Hfresh)
      as (r & st2 & E & _ & Hacc2).
    rewrite E in Hadd. inversion Hadd; subst. exact Hacc2.
  - assert (Hsome : is_Some (st_qh st !! p)).
    { unfold qh_deactivate_at in Hd.
      destruct (st_qh st !! p); [eauto | discriminate Hd]. }
    destruct (accounted_qh_calls p snps st Hacc Hsome) as (_ & _ & Hdeact).
    destruct (Hdeact Hin) as (st2 & E & Hacc2).
    rewrite E in Hd. inversion Hd; subst. exact Hacc2.
  - assert (Hsome : is_Some (st_qh st !! p)).
    { unfold qh_remove_at in Hr.
      destruct (st_qh st !! p); [eauto | discriminate Hr]. }
    destruct (accounted_qh_calls p 0 st Hacc Hsome) as (_ & (st2 & E & Hacc2) & _).
    rewrite E in Hr. inversion Hr; subst. exact Hacc2.
  - assert (Hsome : is_Some (st_qh st !! p)).
    { unfold qh_add_at in Ha.
      destruct (st_qh st !! p); [eauto | discriminate Ha]. }
    destruct (accounted_qh_calls p 0 st Hacc Hsome) as ((r & st2 & E & Hacc2) & _).
    rewrite E in Ha. inversion Ha; subst. exact Hacc2.
  - apply (accounted_store st p _ (st_hcpriv st) Hacc).
    + rewrite Hqh. split; reflexivity.
    + intros ep r Hr. right. exact Hr.
Qed.

(** P2 (bandwidth conservation) along every run of calls that starts from
    consistent bookkeeping: the schedules stay free of duplicates,
    [periodic_channels] is the number of QHs on the periodic schedules (so
    never negative) and [periodic_usecs] the sum of their [usecs]; once
    the periodic schedules are empty both counters are back at 0. *)
Theorem accounted_along_runs st st' :
  accounted st ->
  rtc hcd_step st st' ->
  accounted st'
  /\ periodic_channels (st_hcd st')
     = Z.of_nat (length (periodic_entries (st_hcd st')))
  /\ periodic_usecs (st_hcd st')
     = claimed_usecs (st_qh st') (periodic_entries (st_hcd st'))
  /\ 0 <= periodic_channels (st_hcd st')
  /\ (periodic_entries (st_hcd st') = [] ->
      periodic_channels (st_hcd st') = 0 /\ periodic_usecs (st_hcd st') = 0).
Proof.
  intros Hacc Hrun.
  assert (Hacc' : accounted st').
  { induction Hrun as [|st1 st2 st3 Hstep _ IH]; [exact Hacc|].
    apply IH. exact (accounted_step st1 st2 Hacc Hstep). }
  pose proof (acc_channels st' Hacc') as Hc.
  pose proof (acc_usecs st' Hacc') as Hu.
  split; [exact Hacc'|]. split; [exact Hc|]. split; [exact Hu|].
  split; [lia|].
  intros Hempty. rewrite Hempty in Hc, Hu. split; [exact Hc | exact Hu].
Qed.

(** *** Freeing a QH *)

Lemma qtd_list_free_spec qtds allocated qtd :
  qtd ∈ qtd_list_free qtds allocated <-> qtd ∈ allocated /\ qtd ∉ qtds.
Proof.
  revert allocated. induction qtds as [|pos qtds IH]; intros allocated; cbn.
  - split; [intros H; split; [exact H | apply not_elem_of_nil] | intros [H _]; exact H].
  - rewrite IH, elem_of_difference, elem_of_singleton, not_elem_of_cons.
    clear_helpers; tauto.
Qed.

(** [dwc_otg_hcd_qh_free] frees the QH, every QTD on its QTD list and its
    aligned buffer, and nothing else: the other QHs and QTDs stay
    allocated, and neither the HCD nor [ep->hcpriv] of any endpoint is
    written. *)
Theorem qh_free_releases p m m' qh :
  st_qh (mem_state m) !! p = Some qh ->
  dwc_otg_hcd_qh_free p m = Some m' ->
  st_qh (mem_state m') !! p = None
  /\ (forall p', p' <> p ->
        st_qh (mem_state m') !! p' = st_qh (mem_state m) !! p')
  /\ (forall qtd, qtd ∈ mem_qtd m' <-> qtd ∈ mem_qtd m /\ qtd ∉ qtd_list qh)
  /\ (forall r, r ∈ mem_dw_align_buf m' <-> r ∈ mem_dw_align_buf m /\ r <> p)
  /\ st_hcd (mem_state m') = st_hcd (mem_state m)
  /\ st_hcpriv (mem_state m') = st_hcpriv (mem_state m).
Proof.
  intros Hqh Hfree. unfold dwc_otg_hcd_qh_free in Hfree. rewrite Hqh in Hfree.
  inversion Hfree; subst m'; cbn.
  split; [apply lookup_delete_eq|].
  split; [intros p' Hne; apply lookup_delete_ne; congruence|].
  split; [intros qtd; apply qtd_list_free_spec|].
  split; [|split; reflexivity].
  intros r. rewrite elem_of_difference, elem_of_singleton. reflexivity.
Qed.

(** Freeing a QH that is on no schedule and is no endpoint's [hcpriv], as
    the comment of [dwc_otg_hcd_qh_free] asks for the schedule, keeps the
    bookkeeping consistent. *)
Theorem qh_free_accounted p m :
  accounted (mem_state m) ->
  is_Some (st_qh (mem_state m) !! p) ->
  ~ in_schedule (st_hcd (mem_state m)) p ->
  (forall ep, st_hcpriv (mem_state m) !! ep <> Some p) ->
  exists m', dwc_otg_hcd_qh_free p m = Some m' /\ accounted (mem_state m').
Proof.
  intros Hacc [qh Hqh] Hout Hpriv.
  unfold dwc_otg_hcd_qh_free. rewrite Hqh.
  eexists. split; [reflexivity|]. cbn [mem_state].
  assert (Hne : forall q, q ∈ sched_entries (st_hcd (mem_state m)) -> q <> p).
  { intros q Hq ->. apply Hout, in_schedule_entries, Hq. }
  assert (Hper : forall q, q ∈ periodic_entries (st_hcd (mem_state m)) -> q <> p).
  { intros q Hq. apply Hne. rewrite sched_entries_split, elem_of_app. auto. }
  assert (Hnon : forall q, q ∈ non_periodic_entries (st_hcd (mem_state m)) -> q <> p).
  { intros q Hq. apply Hne. rewrite sched_entries_split, elem_of_app. auto. }
  constructor; cbn [st_hcd st_qh st_hcpriv].
  - exact (acc_wf _ Hacc).
  - intros q Hq. rewrite lookup_delete_ne by (apply not_eq_sym, Hper, Hq).
    exact (acc_periodic _ Hacc q Hq).
  - intros q Hq. rewrite lookup_delete_ne by (apply not_eq_sym, Hnon, Hq).
    exact (acc_non_periodic _ Hacc q Hq).
  - intros ep r Hr.
    assert (r <> p) by (intros ->; exact (Hpriv ep Hr)).
    rewrite lookup_delete_ne by congruence.
    exact (acc_hcpriv _ Hacc ep r Hr).
  - exact (acc_channels _ Hacc).
  - rewrite (acc_usecs _ Hacc). apply claimed_usecs_ext.
    intros q Hq. unfold usecs_at.
    rewrite lookup_delete_ne by (apply not_eq_sym, Hper, Hq). reflexivity.
Qed.

(** [dwc_otg_hcd_qh_free] neither unlinks the QH nor clears [ep->hcpriv]:
    a QH freed while it is on a schedule stays on that schedule, a second
    [dwc_otg_hcd_qh_free] finds no QH, and when an endpoint still has the
    QH as [hcpriv] the next [dwc_otg_hcd_qtd_add] for that endpoint reads
    the freed QH. *)
Theorem qh_free_leaves_references p m m' alloc qtd q b :
  dwc_otg_hcd_qh_free p m = Some m' ->
  (p ∈ sched_list_of (st_hcd (mem_state m)) b ->
     p ∈ sched_list_of (st_hcd (mem_state m')) b)
  /\ dwc_otg_hcd_qh_free p m' = None
  /\ (st_hcpriv (mem_state m) !! urb_ep (qtd_urb q) = Some p ->
      dwc_otg_hcd_qtd_add alloc qtd q (mem_state m') = None).
Proof.
  intros Hfree. unfold dwc_otg_hcd_qh_free in Hfree.
  destruct (st_qh (mem_state m) !! p) as [qh|] eqn:Hqh; [|discriminate Hfree].
  inversion Hfree; subst m'; cbn [mem_state st_hcd].
  split; [auto|]. split.
  - unfold dwc_otg_hcd_qh_free. cbn. rewrite lookup_delete_eq. reflexivity.
  - intros Hpriv. unfold dwc_otg_hcd_qtd_add. cbn.
    rewrite Hpriv, lookup_delete_eq. reflexivity.
Qed.

(** *** Admission of a periodic QH, and admission undone *)

Lemma account_periodic_undo qh b :
  account_periodic (-1) qh (account_periodic 1 qh b) = b.
Proof.
  unfold account_periodic.
  destruct (usb_endpoint_xfer_eqb (ep_type qh) USB_ENDPOINT_XFER_INT);
    destruct b as [a i s]; cbn; f_equal; lia.
Qed.

Lemma account_periodic_reqs sign qh b :
  bandwidth_int_reqs (account_periodic sign qh b)
  + bandwidth_isoc_reqs (account_periodic sign qh b)
  = bandwidth_int_reqs b + bandwidth_isoc_reqs b + sign.
Proof.
  unfold account_periodic.
  destruct (usb_endpoint_xfer_eqb (ep_type qh) USB_ENDPOINT_XFER_INT);
    cbn; lia.
Qed.

Lemma check_max_xfer_size_0 hcd qh :
  check_max_xfer_size hcd qh = 0 <->
  to_uint32 (dwc_max_packet (maxp qh) * dwc_hb_mult (maxp qh))
  <= to_uint32 (max_transfer_size (core_params hcd)).
Proof.
  unfold check_max_xfer_size.
  destruct (Z.gtb_spec
              (to_uint32 (dwc_max_packet (maxp qh) * dwc_hb_mult (maxp qh)))
              (to_uint32 (max_transfer_size (core_params hcd)))) as [H|H];
    split; intros H'; try reflexivity; try lia; discriminate H'.
Qed.

Lemma sched_list_of_unscheduled hcd p :
  ~ in_schedule hcd p ->
  forall b, list_del p (sched_list_of hcd b) = sched_list_of hcd b.
Proof.
  intros Hout b. apply list_del_not_elem_of. intros H. apply Hout.
  exists b. exact H.
Qed.

(** A periodic QH that is on no schedule is admitted exactly when a host
    channel is free for periodic use, the time it needs fits into what is
    left of the (micro)frame and one channel can carry its data.  It is
    then linked last on the inactive periodic schedule, one channel and
    [usecs] are reserved, and usbfs counts one more periodic request. *)
Theorem qh_add_periodic_admission hcd p qh :
  dwc_qh_is_non_per qh = false ->
  ~ in_schedule hcd p ->
  let r := dwc_otg_hcd_qh_add hcd p qh in
  (fst r = 0 <->
     (periodic_channels hcd + non_periodic_channels hcd
      < host_channels (core_params hcd)
      /\ periodic_channels hcd < host_channels (core_params hcd) - 1)
     /\ periodic_usecs hcd <= max_claimed_usecs hcd qh
     /\ to_uint32 (dwc_max_packet (maxp qh) * dwc_hb_mult (maxp qh))
        <= to_uint32 (max_transfer_size (core_params hcd)))
  /\ (fst r = 0 ->
        periodic_sched_inactive (snd r) = periodic_sched_inactive hcd ++ [p]
        /\ (forall b, b <> PERIODIC_SCHED_INACTIVE ->
              sched_list_of (snd r) b = sched_list_of hcd b)
        /\ periodic_channels (snd r) = periodic_channels hcd + 1
        /\ periodic_usecs (snd r) = periodic_usecs hcd + usecs qh
        /\ non_periodic_qh_ptr (snd r) = non_periodic_qh_ptr hcd
        /\ bandwidth_int_reqs (bus (snd r)) + bandwidth_isoc_reqs (bus (snd r))
           = bandwidth_int_reqs (bus hcd) + bandwidth_isoc_reqs (bus hcd) + 1).
Proof.
  intros Hk Hout r. subst r.
  apply qh_list_entry_empty_true in Hout.
  unfold dwc_otg_hcd_qh_add. rewrite Hout, Hk. cbn [negb].
  rewrite <- periodic_channel_available_0, <- check_periodic_bandwidth_0,
    <- check_max_xfer_size_0.
  destruct (periodic_channel_available_cases hcd) as [H1 | H1].
  2: { rewrite schedule_periodic_denied by (rewrite H1; left; discriminate).
       cbn [fst snd]. split; [split|]; intros H; try discriminate H.
       destruct H as (H & _). rewrite H1 in H. discriminate H. }
  destruct (check_periodic_bandwidth_cases hcd qh) as [H2 | H2].
  2: { rewrite schedule_periodic_denied
         by (rewrite H2; right; left; discriminate).
       cbn [fst snd]. split; [split|]; intros H; try discriminate H.
       destruct H as (_ & H & _). rewrite H2 in H. discriminate H. }
  destruct (check_max_xfer_size_cases hcd qh) as [H3 | H3].
  2: { rewrite schedule_periodic_denied
         by (rewrite H3; right; right; discriminate).
       cbn [fst snd]. split; [split|]; intros H; try discriminate H.
       destruct H as (_ & _ & H). rewrite H3 in H. discriminate H. }
  rewrite (schedule_periodic_granted hcd p qh H1 H2 H3). cbn [fst snd].
  split; [split; [intros _; auto | reflexivity]|].
  intros _. split; [reflexivity|].
  split; [intros b Hb; destruct b; try reflexivity; contradiction|].
  split; [reflexivity|]. split; [reflexivity|]. split; [reflexivity|].
  apply (account_periodic_reqs 1 qh (bus hcd)).
Qed.

(** Removing a QH that was just admitted undoes the admission: the
    schedules, both periodic counters and the usbfs figures are what they
    were before.  The cursor of the non-periodic schedule must not have
    pointed at the unlinked QH. *)
Theorem qh_add_remove_round_trip hcd p qh :
  ~ in_schedule hcd p ->
  non_periodic_qh_ptr hcd <> QH_LIST_ENTRY p ->
  fst (dwc_otg_hcd_qh_add hcd p qh) = 0 ->
  dwc_otg_hcd_qh_remove (snd (dwc_otg_hcd_qh_add hcd p qh)) p qh = hcd.
Proof.
  intros Hout Hcur Hok.
  pose proof (sched_list_of_unscheduled hcd p Hout) as Hl.
  pose proof (Hl NON_PERIODIC_SCHED_INACTIVE) as L1.
  pose proof (Hl NON_PERIODIC_SCHED_ACTIVE) as L2.
  pose proof (Hl PERIODIC_SCHED_INACTIVE) as L3.
  pose proof (Hl PERIODIC_SCHED_READY) as L4.
  pose proof (Hl PERIODIC_SCHED_QUEUED) as L5.
  cbn [sched_list_of] in L1, L2, L3, L4, L5.
  apply qh_list_entry_empty_true in Hout as He.
  unfold dwc_otg_hcd_qh_add in *. rewrite He in *. cbn [negb] in *.
  destruct (dwc_qh_is_non_per qh) eqn:Hk.
  - cbn [snd]. unfold dwc_otg_hcd_qh_remove. rewrite Hk.
    assert (qh_list_entry_empty
              (set_non_periodic_sched_inactive
                 (list_add_tail p (non_periodic_sched_inactive hcd)) hcd) p
            = false) as ->.
    { apply qh_list_entry_empty_false. exists NON_PERIODIC_SCHED_INACTIVE.
      cbn. unfold list_add_tail. apply elem_of_app. right.
      apply list_elem_of_here. }
    assert (list_head_ptr_eqb
              (non_periodic_qh_ptr
                 (set_non_periodic_sched_inactive
                    (list_add_tail p (non_periodic_sched_inactive hcd)) hcd))
              (QH_LIST_ENTRY p) = false) as ->.
    { cbn. destruct (non_periodic_qh_ptr hcd) as [q|b]; [|reflexivity].
      cbn. apply bool_decide_eq_false. congruence. }
    unfold list_del_init, set_non_periodic_sched_inactive, with_sched.
    cbn -[list_del list_add_tail].
    rewrite list_del_snoc_eq, L1, L2, L3, L4, L5.
    destruct hcd; reflexivity.
  - destruct (schedule_periodic_cases hcd p qh) as [H | H];
      rewrite H in *; [|discriminate Hok].
    cbn [snd]. unfold dwc_otg_hcd_qh_remove. rewrite Hk.
    assert (qh_list_entry_empty (scheduled hcd p qh) p = false) as ->.
    { apply qh_list_entry_empty_false. exists PERIODIC_SCHED_INACTIVE.
      cbn. unfold list_add_tail. apply elem_of_app. right.
      apply list_elem_of_here. }
    unfold deschedule_periodic, list_del_init, scheduled,
      set_periodic_channels, set_periodic_usecs, set_bus, with_sched.
    cbn -[list_del list_add_tail account_periodic].
    rewrite list_del_snoc_eq, L1, L2, L3, L4, L5, account_periodic_undo.
    replace (periodic_usecs hcd + usecs qh - usecs qh)
      with (periodic_usecs hcd) by lia.
    replace (periodic_channels hcd + 1 - 1) with (periodic_channels hcd) by lia.
    destruct hcd; reflexivity.
Qed.

(** When the helpers return the fields of [wMaxPacketSize] (at most 2047
    bytes, at most 3 additional transactions) nothing wraps in
    [check_max_xfer_size]: a QH is refused exactly when the channel limit
    is below packet size times transactions, and never on a core whose
    [max_transfer_size] is 8188 or more. *)
Theorem check_max_xfer_size_fields hcd qh :
  (forall w, 0 <= dwc_max_packet w <= 2047) ->
  (forall w, 1 <= dwc_hb_mult w <= 4) ->
  0 <= max_transfer_size (core_params hcd) < 2 ^ 32 ->
  (check_max_xfer_size hcd qh = - ENOSPC <->
     max_transfer_size (core_params hcd)
     < dwc_max_packet (maxp qh) * dwc_hb_mult (maxp qh))
  /\ (8188 <= max_transfer_size (core_params hcd) ->
        check_max_xfer_size hcd qh = 0).
Proof.
  intros Hmp Hhb Hlim.
  specialize (Hmp (maxp qh)). specialize (Hhb (maxp qh)).
  assert (0 <= dwc_max_packet (maxp qh) * dwc_hb_mult (maxp qh) <= 8188)
    as Hprod by nia.
  unfold check_max_xfer_size, to_uint32.
  rewrite (Z.mod_small (dwc_max_packet (maxp qh) * dwc_hb_mult (maxp qh)))
    by lia.
  rewrite (Z.mod_small (max_transfer_size (core_params hcd))) by lia.
  destruct (Z.gtb_spec (dwc_max_packet (maxp qh) * dwc_hb_mult (maxp qh))
              (max_transfer_size (core_params hcd))) as [H|H].
  - split; [split; [lia | reflexivity] | lia].
  - split; [split; [discriminate | lia] | reflexivity].
Qed.

End Driver.

(** ** The driver on the concrete configurations *)

(** C2 (bandwidth check): on a high-speed controller with no periodic
    time claimed, a QH needing 101 microseconds is over the budget of 100;
    [periodic_usecs > 100 - usecs] holds, so the check of the spec fails.
    The driver's check returns 0, the QH is admitted and [periodic_usecs]
    becomes 101. *)
Theorem bandwidth_check_admits_over_budget :
  let hcd := hcd_idle 0 0 in
  let qh := qh_int 101 1 0 [] in
  let admitted := dwc_otg_hcd_qh_add max_packet_field hb_mult_field hcd 1%positive qh in
  speed (core_params hcd) = DWC_SPEED_PARAM_HIGH
  /\ periodic_usecs hcd > 100 - usecs qh
  /\ max_claimed_usecs hcd qh = 65535
  /\ check_periodic_bandwidth hcd qh = 0
  /\ fst admitted = 0
  /\ periodic_usecs (snd admitted) = 101.
Proof. vm_compute. repeat split; reflexivity. Qed.

(** C3, as stated, fails: after a QH needing 40000 microseconds has been
    admitted on the idle high-speed controller, a second QH of the same
    need is over the budget too, yet [max_claimed_usecs] is 25636 and the
    check refuses it. *)
Lemma bandwidth_check_wraps_counterexample :
  let qh := qh_int 40000 1 0 [] in
  let hcd := snd (dwc_otg_hcd_qh_add max_packet_field hb_mult_field
                    (hcd_idle 0 0) 1%positive qh) in
  periodic_budget hcd < usecs qh < 2 ^ 16
  /\ periodic_usecs hcd = 40000
  /\ max_claimed_usecs hcd qh = 25636
  /\ check_periodic_bandwidth hcd qh = - ENOSPC
  /\ dwc_otg_hcd_qh_add max_packet_field hb_mult_field hcd 2%positive qh
     = (- ENOSPC, hcd).
Proof. vm_compute. repeat split; reflexivity. Qed.

Lemma qh_add_denied_leaves_hcd_witness :
  let r := dwc_otg_hcd_qh_add max_packet_field hb_mult_field
             (hcd_one 50) 2%positive (qh_int 60 4 0 []) in
  fst r = - ENOSPC
  /\ periodic_channels (snd r) = 1
  /\ periodic_usecs (snd r) = 50
  /\ non_periodic_channels (snd r) = 0
  /\ (forall b, sched_list_of (snd r) b = sched_list_of (hcd_one 50) b)
  /\ snd r = hcd_one 50.
Proof.
  split; [reflexivity|].
  apply (qh_add_denied_leaves_hcd max_packet_field hb_mult_field
           (hcd_one 50) 2%positive (qh_int 60 4 0 [])); reflexivity.
Defined.

Lemma channel_availability_witness :
  let r := dwc_otg_hcd_qh_add max_packet_field hb_mult_field
             (hcd_idle 0 0) 1%positive (qh_int 50 4 0 []) in
  periodic_channel_available (hcd_idle 0 0) = 0
  /\ fst r = 0
  /\ periodic_channels (snd r) = 1.
Proof.
  destruct (channel_availability max_packet_field hb_mult_field
              (hcd_idle 0 0) 1%positive (qh_int 50 4 0 [])) as [_ Hyes].
  { reflexivity. }
  { apply qh_list_entry_empty_true. reflexivity. }
  destruct Hyes as [H0 H]; [cbn; lia|].
  split; [exact H0|]. apply H; reflexivity.
Defined.

Lemma qh_add_idempotent_witness :
  let r := dwc_otg_hcd_qh_add max_packet_field hb_mult_field
             (hcd_one 50) 1%positive (qh_int 50 4 0 []) in
  fst r = 0
  /\ snd r = hcd_one 50
  /\ (forall b, sched_list_of (snd r) b = sched_list_of (hcd_one 50) b)
  /\ periodic_channels (snd r) = 1
  /\ periodic_usecs (snd r) = 50.
Proof.
  apply (qh_add_idempotent max_packet_field hb_mult_field
           (hcd_one 50) 1%positive (qh_int 50 4 0 [])).
  apply qh_list_entry_empty_false. reflexivity.
Defined.

Lemma bandwidth_check_wraps_witness :
  max_claimed_usecs (hcd_idle 0 0) (qh_int 101 1 0 []) = 65535
  /\ check_periodic_bandwidth (hcd_idle 0 0) (qh_int 101 1 0 []) = 0.
Proof.
  destruct (bandwidth_check_wraps max_packet_field hb_mult_field
              (hcd_idle 0 0) 1%positive (qh_int 101 1 0 []))
    as (Hmax & _ & Hpass); [cbn; lia|].
  split; [exact Hmax|]. apply Hpass. cbn. lia.
Defined.



Lemma deactivate_split_continuation_witness :
  let qh' := snd (dwc_otg_hcd_qh_deactivate frame_num_inc_plain
                    frame_num_le_plain max_packet_field hb_mult_field
                    (fun _ => 100) (hcd_one 50) 1%positive
                    (qh_split USB_ENDPOINT_XFER_INT 1 99) 1) in
  sched_frame qh' = 101 /\ start_split_frame qh' = 99.
Proof.
  apply (deactivate_split_continuation frame_num_inc_plain
           frame_num_le_plain max_packet_field hb_mult_field (fun _ => 100)
           (hcd_one 50) 1%positive (qh_split USB_ENDPOINT_XFER_INT 1 99) 1).
  - reflexivity.
  - cbn. lia.
  - lia.
Defined.

Lemma qtd_add_alloc_failure_returns_0_witness :
  let st := {| st_hcd := hcd_idle 0 0; st_qh := ∅; st_hcpriv := ∅ |} in
  dwc_otg_hcd_qtd_add frame_num_inc_plain max_packet_field hb_mult_field
    (fun _ _ _ _ => 50000) (fun ns => ns / 1000)
    None 1%positive {| qtd_urb := urb_int USB_SPEED_HIGH 1 |} st
  = Some (0, st).
Proof.
  apply (qtd_add_alloc_failure_returns_0 frame_num_inc_plain max_packet_field
           hb_mult_field (fun _ _ _ _ => 50000) (fun ns => ns / 1000)
           1%positive {| qtd_urb := urb_int USB_SPEED_HIGH 1 |}).
  reflexivity.
Defined.

Lemma qh_init_periodic_schedule_witness :
  let qh := dwc_otg_hcd_qh_init frame_num_inc_plain max_packet_field
              hb_mult_field (fun _ _ _ _ => 50000) (fun ns => ns / 1000)
              (hcd_idle 0 0) (urb_int USB_SPEED_LOW 2) in
  interval qh = 16 /\ sched_frame qh = 111 /\ start_split_frame qh = 111.
Proof.
  destruct (qh_init_periodic_schedule frame_num_inc_plain max_packet_field
              hb_mult_field (fun _ _ _ _ => 50000) (fun ns => ns / 1000)
              (hcd_idle 0 0) (urb_int USB_SPEED_LOW 2) (or_introl eq_refl))
    as (_ & _ & Hsplit & _).
  destruct Hsplit as (Hi & Hs & _ & _ & Hssf); [split; [reflexivity | left; reflexivity]|].
  split; [exact Hi|]. split; [exact Hs|]. rewrite Hssf. exact Hs.
Defined.

Lemma deactivate_drained_withdraws_witness :
  let hcd' := fst (dwc_otg_hcd_qh_deactivate frame_num_inc_plain
                     frame_num_le_plain max_packet_field hb_mult_field
                     (fun _ => 100) (hcd_one 50) 1%positive
                     (qh_int 50 4 100 []) 0) in
  (forall b, 1%positive ∉ sched_list_of hcd' b)
  /\ periodic_channels hcd' = 0
  /\ periodic_usecs hcd' = 0.
Proof.
  destruct (deactivate_drained_withdraws frame_num_inc_plain
              frame_num_le_plain max_packet_field hb_mult_field
              (fun _ => 100) (hcd_one 50) 1%positive (qh_int 50 4 100 []) 0)
    as (Hout & _ & Hpc & Hpu & _).
  { reflexivity. }
  { apply qh_list_entry_empty_false. reflexivity. }
  { reflexivity. }
  split; [exact Hout|]. split; [exact Hpc | exact Hpu].
Defined.

Lemma check_periodic_bandwidth_within_budget_witness :
  max_claimed_usecs (hcd_one 50) (qh_int 60 4 0 []) = 40
  /\ (check_periodic_bandwidth (hcd_one 50) (qh_int 60 4 0 []) = - ENOSPC
      <-> 50 > 40).
Proof.
  apply (check_periodic_bandwidth_within_budget (hcd_one 50) (qh_int 60 4 0 [])).
  cbn. lia.
Defined.

Lemma qh_add_twice_witness :
  let r := dwc_otg_hcd_qh_add max_packet_field hb_mult_field
             (hcd_idle 0 0) 1%positive (qh_int 50 4 0 []) in
  dwc_otg_hcd_qh_add max_packet_field hb_mult_field (snd r) 1%positive
    (qh_int 50 4 0 [])
  = (0, snd r).
Proof.
  apply (qh_add_twice max_packet_field hb_mult_field
           (hcd_idle 0 0) 1%positive (qh_int 50 4 0 [])).
  reflexivity.
Defined.

Lemma deactivate_periodic_placement_witness :
  let r := dwc_otg_hcd_qh_deactivate frame_num_inc_plain frame_num_le_plain
             max_packet_field hb_mult_field (fun _ => 100) (hcd_one 50)
             1%positive (qh_int 50 4 100 [3%positive]) 0 in
  sched_frame (snd r) = 104
  /\ periodic_sched_inactive (fst r) = [1%positive]
  /\ periodic_sched_ready (fst r) = [].
Proof.
  destruct (deactivate_periodic_placement frame_num_inc_plain
              frame_num_le_plain max_packet_field hb_mult_field
              (fun _ => 100) (hcd_one 50) 1%positive
              (qh_int 50 4 100 [3%positive]) 0)
    as (_ & Hinactive & _).
  { reflexivity. }
  { discriminate. }
  split; [reflexivity|]. apply Hinactive. vm_compute. discriminate.
Defined.

Lemma sched_wf_preserved_witness :
  sched_wf (snd (dwc_otg_hcd_qh_add max_packet_field hb_mult_field
                   (hcd_one 50) 2%positive (qh_int 10 4 0 [])))
  /\ sched_wf (dwc_otg_hcd_qh_remove (hcd_one 50) 2%positive (qh_int 10 4 0 []))
  /\ sched_wf (fst (dwc_otg_hcd_qh_deactivate frame_num_inc_plain
                      frame_num_le_plain max_packet_field hb_mult_field
                      (fun _ => 100) (hcd_one 50) 2%positive
                      (qh_int 10 4 0 []) 0))
  /\ (forall b1 b2, 2%positive ∈ sched_list_of (hcd_one 50) b1 ->
        2%positive ∈ sched_list_of (hcd_one 50) b2 -> b1 = b2).
Proof.
  apply (sched_wf_preserved frame_num_inc_plain frame_num_le_plain
           max_packet_field hb_mult_field (fun _ => 100) (hcd_one 50)
           2%positive (qh_int 10 4 0 []) 0).
  unfold sched_wf. cbn. apply NoDup_singleton.
Defined.

Lemma accounted_st_idle : accounted st_idle.
Proof.
  constructor; cbn.
  - apply NoDup_nil_2.
  - intros p Hp. apply elem_of_nil in Hp. contradiction.
  - intros p Hp. apply elem_of_nil in Hp. contradiction.
  - intros ep p Hp. rewrite lookup_empty in Hp. discriminate Hp.
  - reflexivity.
  - reflexivity.
Qed.

Lemma accounted_st_one : accounted st_one.
Proof.
  constructor; cbn.
  - apply NoDup_singleton.
  - intros p Hp. apply list_elem_of_singleton in Hp. subst p.
    eexists. split; [apply lookup_singleton_eq | reflexivity].
  - intros p Hp. apply elem_of_nil in Hp. contradiction.
  - intros ep p Hp. apply lookup_singleton_Some in Hp as [_ <-].
    rewrite lookup_singleton_eq. eauto.
  - reflexivity.
  - reflexivity.
Qed.

Lemma accounted_mem_unlinked : accounted (mem_state mem_unlinked).
Proof.
  constructor; cbn.
  - apply NoDup_nil_2.
  - intros p Hp. apply elem_of_nil in Hp. contradiction.
  - intros p Hp. apply elem_of_nil in Hp. contradiction.
  - intros ep p Hp. rewrite lookup_empty in Hp. discriminate Hp.
  - reflexivity.
  - reflexivity.
Qed.

Lemma sched_wf_hcd_bulk : sched_wf hcd_bulk.
Proof.
  unfold sched_wf. cbn. apply NoDup_cons. split; [|apply NoDup_singleton].
  intros H. apply list_elem_of_singleton in H. discriminate H.
Qed.

Lemma within_limits_preserved_witness :
  within_limits (snd (dwc_otg_hcd_qh_add max_packet_field hb_mult_field
                        (hcd_idle 0 0) 1%positive (qh_int 50 4 0 [])))
  /\ within_limits (dwc_otg_hcd_qh_remove (hcd_idle 0 0) 1%positive
                      (qh_int 50 4 0 []))
  /\ within_limits (fst (dwc_otg_hcd_qh_deactivate frame_num_inc_plain
                           frame_num_le_plain max_packet_field hb_mult_field
                           (fun _ => 100) (hcd_idle 0 0) 1%positive
                           (qh_int 50 4 0 []) 0)).
Proof.
  apply (within_limits_preserved frame_num_inc_plain frame_num_le_plain
           max_packet_field hb_mult_field (fun _ => 100)
           (hcd_idle 0 0) 1%positive (qh_int 50 4 0 []) 0).
  - cbn. lia.
  - split; cbn; lia.
Defined.

Lemma cursor_valid_preserved_witness :
  cursor_valid (dwc_otg_hcd_qh_remove hcd_bulk 1%positive qh_bulk)
  /\ cursor_valid (fst (dwc_otg_hcd_qh_deactivate frame_num_inc_plain
                          frame_num_le_plain max_packet_field hb_mult_field
                          (fun _ => 100) hcd_bulk 1%positive qh_bulk 0))
  /\ non_periodic_qh_ptr (dwc_otg_hcd_qh_remove hcd_bulk 1%positive qh_bulk)
     = QH_LIST_ENTRY 2%positive
  /\ non_periodic_qh_ptr
       (fst (dwc_otg_hcd_qh_deactivate frame_num_inc_plain
               frame_num_le_plain max_packet_field hb_mult_field
               (fun _ => 100) hcd_bulk 1%positive qh_bulk 0))
     = QH_LIST_ENTRY 2%positive.
Proof.
  destruct (cursor_valid_preserved frame_num_inc_plain frame_num_le_plain
              max_packet_field hb_mult_field (fun _ => 100)
              hcd_bulk 1%positive qh_bulk 0)
    as (_ & Hr & Hd & _ & _ & Hdc & _ & Hnext).
  - apply sched_wf_hcd_bulk.
  - apply qh_list_entry_empty_false. reflexivity.
  - left. reflexivity.
  - pose proof (Hnext eq_refl NON_PERIODIC_SCHED_INACTIVE [] [2%positive]
                  eq_refl) as Hn.
    split; [exact Hr|]. split; [exact Hd|]. split; [exact Hn|].
    rewrite Hdc. exact Hn.
Defined.

Lemma deactivate_non_periodic_witness :
  let r := dwc_otg_hcd_qh_deactivate frame_num_inc_plain frame_num_le_plain
             max_packet_field hb_mult_field (fun _ => 100)
             hcd_bulk 1%positive qh_bulk 0 in
  non_periodic_sched_inactive (fst r) = [2%positive; 1%positive]
  /\ periodic_channels (fst r) = 0.
Proof.
  destruct (deactivate_non_periodic frame_num_inc_plain frame_num_le_plain
              max_packet_field hb_mult_field (fun _ => 100)
              hcd_bulk 1%positive qh_bulk 0 eq_refl)
    as (_ & Hc & _ & _ & Hq & _).
  split; [|exact Hc].
  destruct Hq as [Hq _]; [discriminate|]. exact Hq.
Defined.

Lemma deactivate_split_restart_aligned_witness :
  let qh' := snd (dwc_otg_hcd_qh_deactivate frame_num_inc_plain
                    frame_num_le_plain max_packet_field hb_mult_field
                    (fun _ => 100) (hcd_one 50) 1%positive
                    (qh_split USB_ENDPOINT_XFER_INT 1 95) 0) in
  sched_frame qh' = 103 /\ sched_frame qh' mod 8 = 7
  /\ start_split_frame qh' = sched_frame qh'.
Proof.
  destruct (deactivate_split_restart_aligned frame_num_inc_plain
              frame_num_le_plain max_packet_field hb_mult_field
              (fun _ => 100) (fun _ _ => eq_refl) (fun _ _ => eq_refl)
              (hcd_one 50) 1%positive (qh_split USB_ENDPOINT_XFER_INT 1 95))
    as (Hs & _ & Hm & _ & Hssf).
  { reflexivity. }
  { cbn. lia. }
  split; [exact Hs|]. split; [exact Hm | exact Hssf].
Defined.

Lemma qtd_add_queued_witness :
  exists st' p qh,
    dwc_otg_hcd_qtd_add frame_num_inc_plain max_packet_field hb_mult_field
      bus_time_50us ns_to_us (Some 1%positive) 5%positive
      {| qtd_urb := urb_int USB_SPEED_HIGH 1 |} st_idle = Some (0, st')
    /\ st_hcpriv st' !! 1%positive = Some p
    /\ st_qh st' !! p = Some (set_qtd_list (qtd_list qh ++ [5%positive]) qh)
    /\ in_schedule (st_hcd st') p.
Proof.
  eexists.
  destruct (qtd_add_queued frame_num_inc_plain max_packet_field hb_mult_field
              bus_time_50us ns_to_us (Some 1%positive) 5%positive
              {| qtd_urb := urb_int USB_SPEED_HIGH 1 |} st_idle _ eq_refl)
    as (p & qh & _ & Hpriv & Hqh & Hin & _).
  { right. eexists. reflexivity. }
  exists p, qh. split; [reflexivity|]. split; [exact Hpriv|].
  split; [exact Hqh | exact Hin].
Defined.

Lemma qtd_add_refused_witness :
  exists st' p qh,
    dwc_otg_hcd_qtd_add frame_num_inc_plain max_packet_field hb_mult_field
      bus_time_50us ns_to_us (Some 1%positive) 5%positive
      {| qtd_urb := urb_int USB_SPEED_HIGH 1 |} st_busy = Some (- ENOSPC, st')
    /\ st_hcd st' = st_hcd st_busy
    /\ st_hcpriv st' !! 1%positive = Some p
    /\ st_qh st' !! p = Some qh
    /\ qtd_list qh = []
    /\ ~ in_schedule (st_hcd st') p.
Proof.
  eexists.
  destruct (qtd_add_refused frame_num_inc_plain max_packet_field hb_mult_field
              bus_time_50us ns_to_us (Some 1%positive) 5%positive
              {| qtd_urb := urb_int USB_SPEED_HIGH 1 |} st_busy (- ENOSPC) _
              eq_refl)
    as (_ & Hhcd & _ & p & qh & Hpriv & Hqh & _ & Hout & Hnew).
  { discriminate. }
  exists p, qh. split; [reflexivity|]. split; [exact Hhcd|].
  split; [exact Hpriv|]. split; [exact Hqh|].
  split; [|exact Hout].
  destruct Hnew as (_ & Hl & _); [reflexivity | exact Hl].
Defined.

Lemma qtd_add_each_fifo_witness :
  exists st',
    qtd_add_each frame_num_inc_plain max_packet_field hb_mult_field
      bus_time_50us ns_to_us None [5%positive; 6%positive; 7%positive]
      {| qtd_urb := urb_int USB_SPEED_HIGH 1 |} st_one
    = Some ([0; 0; 0], st')
    /\ st_hcd st' = hcd_one 50
    /\ st_qh st' !! 1%positive
       = Some (qh_int 50 4 100 [5%positive; 6%positive; 7%positive]).
Proof.
  destruct (qtd_add_each_fifo frame_num_inc_plain max_packet_field
              hb_mult_field bus_time_50us ns_to_us None
              [5%positive; 6%positive; 7%positive]
              {| qtd_urb := urb_int USB_SPEED_HIGH 1 |} st_one
              1%positive (qh_int 50 4 100 []))
    as (st' & Heach & Hhcd & _ & Hqh).
  { reflexivity. }
  { reflexivity. }
  { apply qh_list_entry_empty_false. reflexivity. }
  exists st'. split; [exact Heach|]. split; [exact Hhcd|].
  rewrite Hqh. apply lookup_insert_eq.
Defined.

Lemma accounted_qtd_add_witness :
  exists retval st',
    dwc_otg_hcd_qtd_add frame_num_inc_plain max_packet_field hb_mult_field
      bus_time_50us ns_to_us (Some 2%positive) 5%positive
      {| qtd_urb := urb_int USB_SPEED_HIGH 1 |} st_one = Some (retval, st')
    /\ (retval = 0 \/ retval = - ENOSPC)
    /\ accounted st'.
Proof.
  apply (accounted_qtd_add frame_num_inc_plain max_packet_field hb_mult_field
           bus_time_50us ns_to_us (Some 2%positive) 5%positive
           {| qtd_urb := urb_int USB_SPEED_HIGH 1 |} st_one).
  - apply accounted_st_one.
  - intros p Hp. inversion Hp; subst p. reflexivity.
Defined.

Lemma accounted_along_runs_witness :
  exists st',
    dwc_otg_hcd_qtd_add frame_num_inc_plain max_packet_field hb_mult_field
      bus_time_50us ns_to_us (Some 1%positive) 5%positive
      {| qtd_urb := urb_int USB_SPEED_HIGH 1 |} st_idle = Some (0, st')
    /\ accounted st'
    /\ periodic_channels (st_hcd st') = 1
    /\ periodic_usecs (st_hcd st') = 50.
Proof.
  eexists. split; [reflexivity|].
  destruct (accounted_along_runs frame_num_inc_plain frame_num_le_plain
              max_packet_field hb_mult_field bus_time_50us ns_to_us
              (fun _ => 100) st_idle _ accounted_st_idle
              (rtc_once _ _
                 (step_qtd_add frame_num_inc_plain frame_num_le_plain
                    max_packet_field hb_mult_field bus_time_50us ns_to_us
                    (fun _ => 100) (Some 1%positive) 5%positive
                    {| qtd_urb := urb_int USB_SPEED_HIGH 1 |} st_idle 0 _
                    (fun p _ => lookup_empty p) eq_refl)))
    as (Hacc & _ & _ & _ & _).
  split; [exact Hacc|]. split; reflexivity.
Defined.

Lemma qh_free_releases_witness :
  exists m',
    dwc_otg_hcd_qh_free 1%positive mem_unlinked = Some m'
    /\ st_qh (mem_state m') !! 1%positive = None
    /\ (7%positive ∈ mem_qtd m')
    /\ (5%positive ∉ mem_qtd m')
    /\ (1%positive ∉ mem_dw_align_buf m').
Proof.
  eexists. split; [reflexivity|].
  destruct (qh_free_releases 1%positive mem_unlinked _
              (qh_int 50 4 100 [5%positive; 6%positive]) eq_refl eq_refl)
    as (Hgone & _ & Hqtd & Hbuf & _).
  split; [exact Hgone|].
  split; [apply Hqtd; split; [vm_compute; reflexivity | ]|].
  - intros H. cbn in H.
    apply elem_of_cons in H as [H|H]; [discriminate H|].
    apply list_elem_of_singleton in H. discriminate H.
  - split.
    + intros H. apply Hqtd in H as [_ H]. apply H.
      apply list_elem_of_here.
    + intros H. apply Hbuf in H as [_ H]. apply H. reflexivity.
Defined.

Lemma qh_free_accounted_witness :
  exists m',
    dwc_otg_hcd_qh_free 1%positive mem_unlinked = Some m'
    /\ accounted (mem_state m').
Proof.
  apply (qh_free_accounted 1%positive mem_unlinked).
  - apply accounted_mem_unlinked.
  - eexists. reflexivity.
  - apply qh_list_entry_empty_true. reflexivity.
  - intros ep H. cbn in H. rewrite lookup_empty in H. discriminate H.
Defined.

Lemma qh_free_leaves_references_witness :
  exists m',
    dwc_otg_hcd_qh_free 1%positive mem_one = Some m'
    /\ 1%positive ∈ periodic_sched_inactive (st_hcd (mem_state m'))
    /\ dwc_otg_hcd_qh_free 1%positive m' = None
    /\ dwc_otg_hcd_qtd_add frame_num_inc_plain max_packet_field hb_mult_field
         bus_time_50us ns_to_us None 5%positive
         {| qtd_urb := urb_int USB_SPEED_HIGH 1 |} (mem_state m') = None.
Proof.
  eexists. split; [reflexivity|].
  destruct (qh_free_leaves_references frame_num_inc_plain max_packet_field
              hb_mult_field bus_time_50us ns_to_us 1%positive mem_one _ None
              5%positive {| qtd_urb := urb_int USB_SPEED_HIGH 1 |}
              PERIODIC_SCHED_INACTIVE eq_refl)
    as (Hsched & Hfree & Hadd).
  split; [apply Hsched; cbn; set_solver|].
  split; [exact Hfree|]. apply Hadd. reflexivity.
Defined.

Lemma max_packet_field_range w : 0 <= max_packet_field w <= 2047.
Proof.
  unfold max_packet_field.
  change (Z.land w 2047) with (Z.land w (Z.ones 11)).
  rewrite Z.land_ones by discriminate.
  change (2 ^ 11) with 2048.
  pose proof (Z.mod_pos_bound w 2048 eq_refl). lia.
Qed.

Lemma hb_mult_field_range w : 1 <= hb_mult_field w <= 4.
Proof.
  unfold hb_mult_field.
  change (Z.land (Z.shiftr w 11) 3) with (Z.land (Z.shiftr w 11) (Z.ones 2)).
  rewrite Z.land_ones by discriminate.
  change (2 ^ 2) with 4.
  pose proof (Z.mod_pos_bound (Z.shiftr w 11) 4 eq_refl). lia.
Qed.

Lemma qh_add_periodic_admission_witness :
  let r := dwc_otg_hcd_qh_add max_packet_field hb_mult_field
             (hcd_idle 0 0) 1%positive (qh_int 50 4 0 []) in
  fst r = 0
  /\ periodic_sched_inactive (snd r) = [1%positive]
  /\ periodic_channels (snd r) = 1
  /\ periodic_usecs (snd r) = 50.
Proof.
  destruct (qh_add_periodic_admission max_packet_field hb_mult_field
              (hcd_idle 0 0) 1%positive (qh_int 50 4 0 []) eq_refl)
    as [_ Heff].
  { apply qh_list_entry_empty_true. reflexivity. }
  destruct (Heff eq_refl) as (Hl & _ & Hc & Hu & _).
  split; [reflexivity|]. split; [exact Hl|]. split; [exact Hc | exact Hu].
Defined.

Lemma qh_add_remove_round_trip_witness :
  dwc_otg_hcd_qh_remove
    (snd (dwc_otg_hcd_qh_add max_packet_field hb_mult_field
            (hcd_one 50) 2%positive (qh_int 30 8 0 [])))
    2%positive (qh_int 30 8 0 [])
  = hcd_one 50.
Proof.
  apply (qh_add_remove_round_trip max_packet_field hb_mult_field
           (hcd_one 50) 2%positive (qh_int 30 8 0 [])).
  - apply qh_list_entry_empty_true. reflexivity.
  - discriminate.
  - reflexivity.
Defined.

Lemma check_max_xfer_size_fields_witness :
  check_max_xfer_size max_packet_field hb_mult_field (hcd_idle 0 0)
    (qh_int 50 4 0 []) = 0.
Proof.
  destruct (check_max_xfer_size_fields max_packet_field hb_mult_field
              (hcd_idle 0 0) (qh_int 50 4 0 [])
              max_packet_field_range hb_mult_field_range)
    as [_ Hfits].
  { cbn. lia. }
  apply Hfits. cbn. lia.
Defined.
